(** * Enigma machine emulation (src/core/lib/Enigma.mjs): model and properties

    The JavaScript classes [Rotor], [PairMapBase], [Reflector], [Plugboard],
    [EnigmaBase] and [EnigmaMachine] are embedded as modules of pure
    functions.  Mutation of [this] becomes a returned record, a thrown
    exception becomes the [Throw] branch of [result], a JS object used as a
    dictionary becomes a [gmap Z Z] and a JS [Set] a [gset Z]. *)

From Stdlib Require Import ZArith List String Ascii Lia.
From stdpp Require Import base gmap sets list strings.

Open Scope Z_scope.

(** ** JavaScript values *)

(** A JS string is its sequence of UTF-16 code units. *)
Abbreviation jsstring := (list Z).

(** String literals of the source, as code units. *)
Fixpoint js (s : string) : jsstring :=
  match s with
  | EmptyString => []
  | String a s' => Z.of_nat (nat_of_ascii a) :: js s'
  end.

(** A JS number as this program sees it: an integer, or [None] for the
    [NaN] that arithmetic on [undefined] produces. *)
Abbreviation num := (option Z).

Inductive exn : Type :=
| OperationError (msg : jsstring)
| TypeError.

Inductive result (A : Type) : Type :=
| Ok (a : A)
| Throw (e : exn).
Arguments Ok {A} a.
Arguments Throw {A} e.

#[global] Instance result_ret : MRet result := λ A a, Ok a.
#[global] Instance result_bind : MBind result := λ A B f r,
  match r with
  | Ok a => f a
  | Throw e => Throw e
  end.

(** Monadic left fold: the body of a [for] loop or [forEach] callback that
    may throw, run over the elements in order. *)
Fixpoint foldM {A B : Type} (f : A → B → result A) (a : A) (l : list B)
  : result A :=
  match l with
  | [] => Ok a
  | x :: l' => a' ← f a x; foldM f a' l'
  end.

Definition is_high_surrogate (u : Z) : bool := (0xD800 <=? u) && (u <? 0xDC00).
Definition is_low_surrogate (u : Z) : bool := (0xDC00 <=? u) && (u <? 0xE000).

(** [for (const l of s)]: the string iterator yields code points, that is
    one code unit, or a high surrogate followed by a low surrogate. *)
Fixpoint string_iter (s : jsstring) : list jsstring :=
  match s with
  | [] => []
  | u :: s' =>
    match s' with
    | v :: s'' =>
      if is_high_surrogate u && is_low_surrogate v
      then [u; v] :: string_iter s''
      else [u] :: string_iter s'
    | [] => [[u]]
    end
  end.

(** [s[i]]: the one-unit string at index [i], [None] for [undefined]. *)
Definition char_at (s : jsstring) (i : nat) : option jsstring :=
  (λ u, [u]) <$> s !! i.

(** The character class [\s] of a JS regular expression. *)
Definition is_white_space (u : Z) : bool :=
  ((9 <=? u) && (u <=? 13)) || (u =? 32) || (u =? 0xA0) || (u =? 0x1680)
  || ((0x2000 <=? u) && (u <=? 0x200A)) || (u =? 0x2028) || (u =? 0x2029)
  || (u =? 0x202F) || (u =? 0x205F) || (u =? 0x3000) || (u =? 0xFEFF).

Definition is_upper (u : Z) : bool := (65 <=? u) && (u <=? 90).

(** The character class [[A-Za-z]]. *)
Definition is_letter (u : Z) : bool :=
  ((65 <=? u) && (u <=? 90)) || ((97 <=? u) && (u <=? 122)).

(** [s.match(/^[A-Z]{lo,hi}$/)] as a truth value. *)
Definition match_upper (lo hi : nat) (s : jsstring) : bool :=
  (lo <=? length s)%nat && (length s <=? hi)%nat && forallb is_upper s.

(** [s.split(/\s+/)]: every maximal run of white space is one separator;
    a separator at either end leaves an empty token there.  [cur] is the
    token being read (reversed, empty inside a separator), [in_sep] tells
    that the last unit read belonged to a separator. *)
Fixpoint split_ws_from (in_sep : bool) (cur : jsstring) (s : jsstring)
  : list jsstring :=
  match s with
  | [] => [reverse cur]
  | u :: s' =>
    if is_white_space u then
      if in_sep then split_ws_from true [] s'
      else reverse cur :: split_ws_from true [] s'
    else split_ws_from false (u :: cur) s'
  end.

Definition split_ws (s : jsstring) : list jsstring := split_ws_from false [] s.

Module Utils.

(** Modelled from the spec: [Utils.mod] of src/core/Utils.mjs is not among
    the sources (it is [mod_] here, [mod] being a reserved word); the spec
    has positions "normalized modulo 26" into 0..25, also for a negative
    left operand. *)
Definition mod_ (x y : Z) : Z := x `mod` y.

(** Modelled from the spec: [Utils.ord] of src/core/Utils.mjs is not among
    the sources; it gives the character code that the letter codec compares
    with the ASCII ranges: the code point of a surrogate pair, else the
    first code unit, [NaN] for the empty string.  (A surrogate pair lies
    outside those ranges whether it is read as its code point or as its
    first code unit.) *)
Definition ord (c : jsstring) : num :=
  match c with
  | [] => None
  | [h; l] =>
    if is_high_surrogate h && is_low_surrogate l
    then Some ((h - 0xD800) * 0x400 + l - 0xDC00 + 0x10000)
    else Some h
  | h :: _ => Some h
  end.

(** Modelled from the spec: [Utils.chr] of src/core/Utils.mjs is not among
    the sources; the inverse of [ord], a one-unit string below 0x10000 and
    a surrogate pair above. *)
Definition chr (o : Z) : jsstring :=
  if 0xFFFF <? o then
    let o' := o - 0x10000 in
    [Z.lor (Z.land (Z.shiftr o' 10) 0x3FF) 0xD800;
     Z.lor 0xDC00 (Z.land o' 0x3FF)]
  else [o].

End Utils.

(** ** Letter codec *)

Definition ROTORS : list (jsstring * jsstring) :=
  [ (js "I", js "EKMFLGDQVZNTOWYHXUSPAIBRCJ<R");
    (js "II", js "AJDKSIRUXBLHWTMCQGZNPYFVOE<F");
    (js "III", js "BDFHJLCPRTXVZNYEIWGAKMUSQO<W");
    (js "IV", js "ESOVPZJAYQUIRHXLNFTGKDCMWB<K");
    (js "V", js "VZBRGITYUPSDNHLXAWMJQOFECK<A");
    (js "VI", js "JPGVOUMFYQBENHZRDKASXLICTW<AN");
    (js "VII", js "NZJHGRCXMYSWBOUFAIVLPEKQDT<AN");
    (js "VIII", js "FKQHTLXOCBJSPDZRAMEWNIUYGV<AN");
    (js "Beta", js "LEYJVCNIXWPBQMDRTAKZGFUHOS");
    (js "Gamma", js "FSOKANUERHMBTIYCWLQPZXVGJD") ].

Definition REFLECTORS : list (jsstring * jsstring) :=
  [ (js "B", js "AY BR CU DH EQ FS GL IP JX KN MO TZ VW");
    (js "C", js "AF BV CP DJ EI GO HY KR LZ MX NW TQ SU");
    (js "B Thin", js "AE BN CK DQ FU GY HW IJ LO MP RX SZ TV");
    (js "C Thin", js "AR BD CO EJ FN GT HK IV LM PW QZ SX UY") ].

(** ["ABCDEFGHIJKLMNOPQRSTUVWXYZ".split("")] *)
Definition LETTERS : list jsstring :=
  (λ u, [u]) <$> js "ABCDEFGHIJKLMNOPQRSTUVWXYZ".

(** Map a letter to a number in 0..25.  Every comparison with [NaN] is
    false, so the empty string is treated like any other non-letter. *)
Definition a2i (c : jsstring) (permissive : bool) : result Z :=
  match Utils.ord c with
  | Some i =>
    if (65 <=? i) && (i <=? 90) then Ok (i - 65)
    else if permissive then
      if (97 <=? i) && (i <=? 122) then Ok (i - 97) else Ok (-1)
    else Throw (OperationError (js "a2i called on non-uppercase ASCII character"))
  | None =>
    if permissive then Ok (-1)
    else Throw (OperationError (js "a2i called on non-uppercase ASCII character"))
  end.

(** Map a number in 0..25 to a letter. *)
Definition i2a (i : num) : result jsstring :=
  match i with
  | Some n =>
    if (0 <=? n) && (n <? 26) then Ok (Utils.chr (n + 65))
    else Throw (OperationError (js "i2a called on value outside 0..25"))
  | None => Throw (OperationError (js "i2a called on value outside 0..25"))
  end.

(** A property read of a value that may be [undefined]. *)
Definition defined {A : Type} (o : option A) : result A :=
  match o with
  | Some a => Ok a
  | None => Throw TypeError
  end.

(** ** Rotor *)

Module Rotor.

Record t : Type := mk {
  map : gmap Z Z;
  revMap : gmap Z Z;
  steps : gset Z;
  pos : Z
}.

(** The wiring loop of the constructor, [for (let i=0; i<LETTERS.length; i++)]. *)
Definition wire (wiring : jsstring) (maps : gmap Z Z * gmap Z Z) (i : nat)
  : result (gmap Z Z * gmap Z Z) :=
  li ← defined (LETTERS !! i);
  a ← a2i li false;
  wi ← defined (char_at wiring i);
  b ← a2i wi false;
  Ok (<[a:=b]> maps.1, <[b:=a]> maps.2).

(** The notch loop of the constructor, [for (const x of steps)]. *)
Definition add_step (rs : Z) (st : gset Z) (x : jsstring) : result (gset Z) :=
  n ← a2i x false;
  Ok ({[ Utils.mod_ (n - rs) 26 ]} ∪ st).

Definition new (wiring stepsStr ringSetting initialPosition : jsstring)
  : result t :=
  if negb (match_upper 26 26 wiring) then
    Throw (OperationError (js "Rotor wiring must be 26 unique uppercase letters"))
  else if negb (match_upper 0 26 stepsStr) then
    Throw (OperationError (js "Rotor steps must be 0-26 unique uppercase letters"))
  else if negb (match_upper 1 1 ringSetting) then
    Throw (OperationError (js "Rotor ring setting must be exactly one uppercase letter"))
  else if negb (match_upper 1 1 initialPosition) then
    Throw (OperationError (js "Rotor initial position must be exactly one uppercase letter"))
  else
    maps ← foldM (wire wiring) (∅, ∅) (seq 0 (length LETTERS));
    if negb (size maps.2 =? length LETTERS)%nat then
      Throw (OperationError (js "Rotor wiring must have each letter exactly once"))
    else
      rs ← a2i ringSetting false;
      st ← foldM (add_step rs) ∅ (string_iter stepsStr);
      if negb (size st =? length stepsStr)%nat then
        Throw (OperationError (js "Rotor steps must be unique"))
      else
        p ← a2i initialPosition false;
        Ok (mk maps.1 maps.2 st (Utils.mod_ (p - rs) 26)).

(** Step the rotor forward by one.  (The source also returns the new
    position, which no caller uses.) *)
Definition step (r : t) : t :=
  mk (map r) (revMap r) (steps r) (Utils.mod_ (pos r + 1) 26).

(** Transform a character through this rotor forwards; a missing map
    entry reads as [undefined] and the arithmetic on it gives [NaN]. *)
Definition transform (r : t) (c : num) : num :=
  c ← c;
  b ← map r !! Utils.mod_ (c + pos r) 26;
  Some (Utils.mod_ (b - pos r) 26).

(** Transform a character through this rotor backwards. *)
Definition revTransform (r : t) (c : num) : num :=
  c ← c;
  b ← revMap r !! Utils.mod_ (c + pos r) 26;
  Some (Utils.mod_ (b - pos r) 26).

End Rotor.

(** ** Plugboard and reflector *)

Module PairMapBase.

Record t : Type := mk { map : gmap Z Z }.

(** The [forEach] callback of the constructor, for one token of the split. *)
Definition add_pair (name : jsstring) (m : gmap Z Z) (pair : jsstring)
  : result (gmap Z Z) :=
  if negb (match_upper 2 2 pair) then
    Throw (OperationError
      (name ++ js " must be a whitespace-separated list of uppercase letter pairs"))
  else
    p0 ← defined (char_at pair 0);
    a ← a2i p0 false;
    p1 ← defined (char_at pair 1);
    b ← a2i p1 false;
    if a =? b then
      Throw (OperationError (name ++ js ": cannot connect " ++ p0 ++ js " to itself"))
    else if bool_decide (is_Some (m !! a)) then
      Throw (OperationError (name ++ js " connects " ++ p0 ++ js " more than once"))
    else if bool_decide (is_Some (m !! b)) then
      Throw (OperationError (name ++ js " connects " ++ p1 ++ js " more than once"))
    else Ok (<[b:=a]> (<[a:=b]> m)).

Definition new (pairs name : jsstring) : result t :=
  if bool_decide (pairs = []) then Ok (mk ∅)
  else m ← foldM (add_pair name) ∅ (split_ws pairs); Ok (mk m).

(** Transform a character through this object; other characters are
    returned unchanged. *)
Definition transform (p : t) (c : num) : num :=
  c ← c;
  match map p !! c with
  | None => Some c
  | Some b => Some b
  end.

(** Alias for [transform], to allow interchangeable use with rotors. *)
Definition revTransform (p : t) (c : num) : num := transform p c.

End PairMapBase.

Module Reflector.

(** [PairMapBase], but every character must be accounted for. *)
Definition new (pairs : jsstring) : result PairMapBase.t :=
  p ← PairMapBase.new pairs (js "Reflector");
  let s := size (PairMapBase.map p) in
  if negb (s =? 26)%nat then
    Throw (OperationError (js "Reflector must have exactly 13 pairs covering every letter"))
  else Ok p.

End Reflector.

Module Plugboard.

Definition new (pairs : jsstring) : result PairMapBase.t :=
  PairMapBase.new pairs (js "Plugboard").

End Plugboard.

(** ** The machine *)

Module EnigmaBase.

(** The rotors are distinct objects, as [run] builds them with one [new
    Rotor] each.  [rotorsRev], the reversed copy of the array made by the
    constructor, holds the same rotor objects, so it is at every moment the
    reverse of [rotors]. *)
Record t : Type := mk {
  rotors : list Rotor.t;
  reflector : PairMapBase.t;
  plugboard : PairMapBase.t
}.

Definition new (rs : list Rotor.t) (refl plug : PairMapBase.t) : t :=
  mk rs refl plug.

Definition rotorsRev (m : t) : list Rotor.t := reverse (rotors m).

Definition set_rotors (m : t) (rs : list Rotor.t) : t :=
  mk rs (reflector m) (plugboard m).

Definition has (s : gset Z) (x : Z) : bool := bool_decide (x ∈ s).

(** Step the rotors forward by one. *)
Definition step (m : t) : result t :=
  r0 ← defined (rotors m !! 0%nat);
  let r0 := Rotor.step r0 in
  let rs := <[0%nat := r0]> (rotors m) in
  (* whichever way the test goes, a property of r1 is read next *)
  r1 ← defined (rs !! 1%nat);
  if has (Rotor.steps r0) (Rotor.pos r0)
     || has (Rotor.steps r1) (Utils.mod_ (Rotor.pos r1 + 1) 26) then
    let r1 := Rotor.step r1 in
    let rs := <[1%nat := r1]> rs in
    if has (Rotor.steps r1) (Rotor.pos r1) then
      r2 ← defined (rs !! 2%nat);
      Ok (set_rotors m (<[2%nat := Rotor.step r2]> rs))
    else Ok (set_rotors m rs)
  else Ok (set_rotors m rs).

(** The signal path of one letter, from the plugboard and back to it. *)
Definition signal (m : t) (letter : num) : num :=
  let letter := PairMapBase.transform (plugboard m) letter in
  let letter := foldl (λ c r, Rotor.transform r c) letter (rotors m) in
  let letter := PairMapBase.transform (reflector m) letter in
  let letter := foldl (λ c r, Rotor.revTransform r c) letter (rotorsRev m) in
  PairMapBase.revTransform (plugboard m) letter.

(** One turn of the loop of [crypt]: the machine and [result] so far, and
    the character [l]. *)
Definition crypt_char (st : t * jsstring) (l : jsstring)
  : result (t * jsstring) :=
  letter ← a2i l true;
  if letter =? -1 then Ok (st.1, st.2 ++ l)
  else
    m ← step st.1;
    c ← i2a (signal m (Some letter));
    Ok (m, st.2 ++ c).

(** Encrypt (or decrypt) some data, from the current state of the machine;
    gives the machine after the run and the output. *)
Definition crypt (m : t) (input : jsstring) : result (t * jsstring) :=
  foldM crypt_char (m, []) (string_iter input).

End EnigmaBase.

Module EnigmaMachine.

Definition new (rs : list Rotor.t) (refl plug : PairMapBase.t)
  : result EnigmaBase.t :=
  let m := EnigmaBase.new rs refl plug in
  if negb (length rs =? 3)%nat && negb (length rs =? 4)%nat then
    Throw (OperationError (js "Enigma must have 3 or 4 rotors"))
  else Ok m.

End EnigmaMachine.

(** ** Configurations *)

(** A machine configuration: the arguments handed to the constructors. *)
Module Config.

Record rotor : Type := mkRotor {
  wiring : jsstring;
  steps : jsstring;
  ringSetting : jsstring;
  initialPosition : jsstring
}.

Record t : Type := mk {
  rotors : list rotor;
  reflector : jsstring;
  plugboard : jsstring
}.

End Config.

Fixpoint traverse {A B : Type} (f : A → result B) (l : list A) : result (list B) :=
  match l with
  | [] => Ok []
  | x :: l' => y ← f x; ys ← traverse f l'; Ok (y :: ys)
  end.

(** A machine freshly constructed from a configuration: one [new Rotor]
    for each rotor in order, [new Reflector], [new Plugboard] and then
    [new EnigmaMachine], the order in which the operation's [run] builds
    its machine. *)
Definition construct (X : Config.t) : result EnigmaBase.t :=
  rs ← traverse (λ c, Rotor.new (Config.wiring c) (Config.steps c)
                    (Config.ringSetting c) (Config.initialPosition c))
            (Config.rotors X);
  refl ← Reflector.new (Config.reflector X);
  plug ← Plugboard.new (Config.plugboard X);
  EnigmaMachine.new rs refl plug.

(** Construct a fresh machine from [X] and run it over [input]. *)
Definition encrypt (X : Config.t) (input : jsstring) : result jsstring :=
  m ← construct X;
  r ← EnigmaBase.crypt m input;
  Ok r.2.

(** ** The operation (src/core/operations/Enigma.mjs) *)

(** The operation file carries its own copies of the classes above, the
    same line for line but for the last plugboard pass, which calls
    [transform] where the library calls its alias [revTransform], and for
    the rotor count being tested before the fields are set. *)
Module Enigma.

(** [s.split(sep)] for a one-unit separator. *)
Fixpoint split_on (sep : Z) (cur : jsstring) (s : jsstring) : list jsstring :=
  match s with
  | [] => [reverse cur]
  | u :: s' =>
    if u =? sep then reverse cur :: split_on sep [] s'
    else split_on sep (u :: cur) s'
  end.

(** Breaks the rotor specification string into wiring and steps parts.
    (The message is a plain string in the source, not a template.) *)
Definition parseRotorStr (rotor : jsstring) (i : Z) : result (list jsstring) :=
  if bool_decide (rotor = []) then
    Throw (OperationError (js "Rotor ${i} must be provided."))
  else if negb (bool_decide (60 ∈ rotor)) then Ok [rotor; []]
  else Ok (take 2 (split_on 60 [] rotor)).

(** [const [wiring, steps] = parseRotorStr(...); new Rotor(wiring, steps,
    ring, pos)].  [parseRotorStr] gives two parts whenever it returns; a
    missing one would be [undefined] and fail inside the constructor. *)
Definition parsed_rotor (rotor : jsstring) (i : Z) (ring p : jsstring)
  : result Rotor.t :=
  parts ← parseRotorStr rotor i;
  wiring ← defined (parts !! 0%nat);
  steps ← defined (parts !! 1%nat);
  Rotor.new wiring steps ring p.

Record args : Type := mkArgs {
  rotor1str : jsstring; rotor1ring : jsstring; rotor1pos : jsstring;
  rotor2str : jsstring; rotor2ring : jsstring; rotor2pos : jsstring;
  rotor3str : jsstring; rotor3ring : jsstring; rotor3pos : jsstring;
  rotor4str : jsstring; rotor4pos : jsstring;
  reflectorstr : jsstring; plugboardstr : jsstring;
  removeOther : bool
}.

(** [input.replace(/[^A-Za-z]/g, "")] *)
Definition strip (input : jsstring) : jsstring :=
  filter (λ u, is_letter u = true) input.

(** [result.replace(/([A-Z]{5})(?!$)/g, "$1 ")]: a space after every five
    upper-case letters found in a row that do not end the string. *)
Fixpoint group5 (s : jsstring) : jsstring :=
  match s with
  | [] => []
  | a :: s' =>
    match s' with
    | b :: c :: d :: e :: ((_ :: _) as rest) =>
      if forallb is_upper [a; b; c; d; e]
      then a :: b :: c :: d :: e :: 32 :: group5 rest
      else a :: group5 s'
    | _ => a :: group5 s'
    end
  end.

Definition run (input : jsstring) (a : args) : result jsstring :=
  r1 ← parsed_rotor (rotor1str a) 1 (rotor1ring a) (rotor1pos a);
  r2 ← parsed_rotor (rotor2str a) 2 (rotor2ring a) (rotor2pos a);
  r3 ← parsed_rotor (rotor3str a) 3 (rotor3ring a) (rotor3pos a);
  rotors ←
    (if negb (bool_decide (rotor4str a = [])) then
       (* Fourth rotor doesn't have a ring setting *)
       r4 ← parsed_rotor (rotor4str a) 4 (js "A") (rotor4pos a);
       Ok [r1; r2; r3; r4]
     else Ok [r1; r2; r3]);
  reflector ← Reflector.new (reflectorstr a);
  plugboard ← Plugboard.new (plugboardstr a);
  let input := if removeOther a then strip input else input in
  enigma ← EnigmaMachine.new rotors reflector plugboard;
  r ← EnigmaBase.crypt enigma input;
  Ok (if removeOther a then group5 r.2 else r.2).



End Enigma.

(** * Vocabulary of the properties *)

(** The upper-case form of a code unit, for the ASCII letters. *)
Definition upcase (u : Z) : Z :=
  if (97 <=? u) && (u <=? 122) then u - 32 else u.

(** The 26 letter indices. *)
Definition alphabet : gset Z := list_to_set (Z.of_nat <$> seq 0 26).

(** State of the two maps of a rotor after the first [k] turns of the
    wiring loop over [w]. *)
Definition wired (w : jsstring) (k : nat) (M RM : gmap Z Z) : Prop :=
  (∀ a b, M !! a = Some b ↔
     ∃ i, (i < k)%nat ∧ a = Z.of_nat i ∧ w !! i = Some (b + 65)) ∧
  (∀ a b, RM !! b = Some a →
     ∃ i, (i < k)%nat ∧ a = Z.of_nat i ∧ w !! i = Some (b + 65)) ∧
  dom RM = list_to_set ((λ u, u - 65) <$> take k w).

(** The invariant of a valid rotor used by the signal path: both maps are
    total on the alphabet, stay inside it and are inverse to each other. *)
Definition Rotor_wf (r : Rotor.t) : Prop :=
  (∀ a, 0 ≤ a < 26 → ∃ b, Rotor.map r !! a = Some b ∧ 0 ≤ b < 26) ∧
  (∀ b, 0 ≤ b < 26 → ∃ a, Rotor.revMap r !! b = Some a ∧ 0 ≤ a < 26) ∧
  (∀ a b, Rotor.revMap r !! b = Some a ↔ Rotor.map r !! a = Some b).

(** State of the map after the tokens [ts] have been registered. *)
Definition paired (ts : list jsstring) (m : gmap Z Z) : Prop :=
  (∀ a b, m !! a = Some b ↔
     ∃ tok, tok ∈ ts ∧ (tok = [a + 65; b + 65] ∨ tok = [b + 65; a + 65])) ∧
  Forall (λ tok, match_upper 2 2 tok = true) ts ∧
  NoDup (mjoin ts).

(** The invariant of a pair map: a symmetric matching on the alphabet
    without fixed points among the connected letters. *)
Definition Pair_wf (p : PairMapBase.t) : Prop :=
  ∀ a b, PairMapBase.map p !! a = Some b →
    PairMapBase.map p !! b = Some a ∧ a ≠ b ∧ 0 ≤ a < 26 ∧ 0 ≤ b < 26.

(** A reflector connects every letter. *)
Definition Reflector_wf (p : PairMapBase.t) : Prop :=
  Pair_wf p ∧ ∀ c, 0 ≤ c < 26 → is_Some (PairMapBase.map p !! c).

(** The invariant of a validly constructed machine. *)
Definition Machine_wf (m : EnigmaBase.t) : Prop :=
  Forall Rotor_wf (EnigmaBase.rotors m) ∧
  (3 ≤ length (EnigmaBase.rotors m))%nat ∧
  Reflector_wf (EnigmaBase.reflector m) ∧
  Pair_wf (EnigmaBase.plugboard m).

(** The effect of [step] on a machine with at least three rotors, rotor by
    rotor. *)
Definition advance1 (r0 r1 : Rotor.t) : bool :=
  EnigmaBase.has (Rotor.steps r0) (Utils.mod_ (Rotor.pos r0 + 1) 26)
  || EnigmaBase.has (Rotor.steps r1) (Utils.mod_ (Rotor.pos r1 + 1) 26).

Definition advance2 (r0 r1 : Rotor.t) : bool :=
  advance1 r0 r1
  && EnigmaBase.has (Rotor.steps r1) (Utils.mod_ (Rotor.pos r1 + 1) 26).

(** Forwards through the rotors, and backwards through them in reverse. *)
Definition forwards (rs : list Rotor.t) (x : num) : num :=
  foldl (λ c r, Rotor.transform r c) x rs.
Definition backwards (rs : list Rotor.t) (x : num) : num :=
  foldl (λ c r, Rotor.revTransform r c) x (reverse rs).

(** What the iterator yields: one code unit or a surrogate pair. *)
Definition chunk (l : jsstring) : Prop :=
  (∃ u, l = [u]) ∨
  (∃ h lo, l = [h; lo] ∧ is_high_surrogate h && is_low_surrogate lo = true).

(** The first code unit of a sequence of characters is a low surrogate. *)
Definition starts_low (cs : list jsstring) : bool :=
  match cs with
  | (v :: _) :: _ => is_low_surrogate v
  | _ => false
  end.

(** Sequences of characters that the iterator yields again when they are
    joined into one string: no lone high surrogate stands before a
    character that starts with a low one. *)
Inductive canonical : list jsstring → Prop :=
| canonical_nil : canonical []
| canonical_pair (h lo : Z) (cs : list jsstring) :
    is_high_surrogate h && is_low_surrogate lo = true →
    canonical cs → canonical ([h; lo] :: cs)
| canonical_single (u : Z) (cs : list jsstring) :
    is_high_surrogate u && starts_low cs = false →
    canonical cs → canonical ([u] :: cs).

(** [n] calls of [step] in a row. *)
Fixpoint stepn (n : nat) (m : EnigmaBase.t) : result EnigmaBase.t :=
  match n with
  | O => Ok m
  | S n' => m' ← EnigmaBase.step m; stepn n' m'
  end.

(** The characters on which [crypt] steps the machine. *)
Definition letter_chunk (c : jsstring) : bool :=
  match a2i c true with
  | Ok n => negb (n =? -1)
  | Throw _ => false
  end.

(** The input character [c] and the character [o] put out for it: a
    character that is no letter is copied, a letter [u] gives an upper-case
    letter [v], related to it by [R]. *)
Definition enc (R : Z → Z → Prop) (c o : jsstring) : Prop :=
  (a2i c true = Ok (-1) ∧ o = c) ∨
  (∃ u v, c = [u] ∧ is_letter u = true ∧ o = [v] ∧ 65 ≤ v ≤ 90 ∧ R u v).

Definition any_letter (u v : Z) : Prop := True.

(** No letter is put out for itself. *)
Definition not_itself (u v : Z) : Prop := v ≠ upcase u.

(** The relation between input and output, code unit by code unit. *)
Definition enc_unit (R : Z → Z → Prop) (u v : Z) : Prop :=
  if is_letter u then 65 ≤ v ≤ 90 ∧ R u v else v = u.

(** Configurations that the constructors must refuse. *)
Definition repeated_wiring (c : Config.rotor) : Prop := ¬ NoDup (Config.wiring c).

Definition letter_in_two_pairs (pairs : jsstring) : Prop :=
  ∃ (i j : nat) (t1 t2 : jsstring) (u : Z),
    split_ws pairs !! i = Some t1 ∧ split_ws pairs !! j = Some t2 ∧ i ≠ j ∧
    u ∈ t1 ∧ u ∈ t2.

Definition letter_not_covered (pairs : jsstring) : Prop :=
  ∃ c, 0 ≤ c < 26 ∧ c + 65 ∉ pairs.

Definition invalid (X : Config.t) : Prop :=
  (∃ c, c ∈ Config.rotors X ∧ repeated_wiring c) ∨
  letter_in_two_pairs (Config.plugboard X) ∨
  letter_not_covered (Config.reflector X) ∨
  (length (Config.rotors X) ≠ 3%nat ∧ length (Config.rotors X) ≠ 4%nat).

Definition is_OperationError (e : exn) : Prop := ∃ msg, e = OperationError msg.

(** The catalog entry of the given name. *)
Fixpoint catalog (l : list (jsstring * jsstring)) (name : string) : jsstring :=
  match l with
  | [] => []
  | e :: l' => if bool_decide (e.1 = js name) then e.2 else catalog l' name
  end.

(** Three catalog rotors, named from the right-hand one (rotor 0) to the
    left-hand one (rotor 2), all at ring setting A and initial position A,
    with reflector B and an empty plugboard: as arguments of the operation
    (no fourth rotor, other characters kept) and as a configuration of the
    library classes. *)
Definition args_AAA (right middle left : string) : Enigma.args :=
  Enigma.mkArgs (catalog ROTORS right) (js "A") (js "A")
                (catalog ROTORS middle) (js "A") (js "A")
                (catalog ROTORS left) (js "A") (js "A")
                (js "") (js "A") (catalog REFLECTORS "B") (js "") false.

Definition rotor_AAA (name : string) : Config.rotor :=
  match Enigma.parseRotorStr (catalog ROTORS name) 0 with
  | Ok [w; s] => Config.mkRotor w s (js "A") (js "A")
  | _ => Config.mkRotor [] [] (js "A") (js "A")
  end.

Definition config_AAA (right middle left : string) : Config.t :=
  Config.mk [rotor_AAA right; rotor_AAA middle; rotor_AAA left]
            (catalog REFLECTORS "B") (js "").

(** The end of [s1] and the start of [s2] form a surrogate pair, so that
    the two strings joined have one character astride the seam. *)
Definition splits_pair (s1 s2 : jsstring) : bool :=
  match last s1, head s2 with
  | Some h, Some lo => is_high_surrogate h && is_low_surrogate lo
  | _, _ => false
  end.

(** Two rotors with the same wiring and notches, whatever their positions. *)
Definition same_wiring (r r' : Rotor.t) : Prop :=
  Rotor.map r' = Rotor.map r ∧ Rotor.revMap r' = Rotor.revMap r ∧
  Rotor.steps r' = Rotor.steps r.

(** The machine that [Enigma.run] builds from its arguments. *)
Definition run_machine (a : Enigma.args) : result EnigmaBase.t :=
  r1 ← Enigma.parsed_rotor (Enigma.rotor1str a) 1 (Enigma.rotor1ring a)
         (Enigma.rotor1pos a);
  r2 ← Enigma.parsed_rotor (Enigma.rotor2str a) 2 (Enigma.rotor2ring a)
         (Enigma.rotor2pos a);
  r3 ← Enigma.parsed_rotor (Enigma.rotor3str a) 3 (Enigma.rotor3ring a)
         (Enigma.rotor3pos a);
  rotors ←
    (if negb (bool_decide (Enigma.rotor4str a = [])) then
       r4 ← Enigma.parsed_rotor (Enigma.rotor4str a) 4 (js "A")
              (Enigma.rotor4pos a);
       Ok [r1; r2; r3; r4]
     else Ok [r1; r2; r3]);
  reflector ← Reflector.new (Enigma.reflectorstr a);
  plugboard ← Plugboard.new (Enigma.plugboardstr a);
  EnigmaMachine.new rotors reflector plugboard.

(** The positions of the rotors, rotor 0 first. *)
Definition positions (r : result EnigmaBase.t) : list Z :=
  match r with
  | Ok m => Rotor.pos <$> EnigmaBase.rotors m
  | Throw _ => []
  end.

(** * Properties *)

(** ** The model at work *)

Example a2i_examples :
  a2i (js "A") false = Ok 0 ∧ a2i (js "Z") false = Ok 25 ∧
  a2i (js "z") true = Ok 25 ∧ a2i (js "1") true = Ok (-1) ∧
  a2i [0xD83D; 0xDE00] true = Ok (-1) ∧
  a2i (js "a") false
  = Throw (OperationError (js "a2i called on non-uppercase ASCII character")).
Proof. repeat split. Qed.

Example i2a_examples :
  i2a (Some 0) = Ok (js "A") ∧ i2a (Some 25) = Ok (js "Z") ∧
  i2a (Some 26) = Throw (OperationError (js "i2a called on value outside 0..25")) ∧
  i2a None = Throw (OperationError (js "i2a called on value outside 0..25")).
Proof. repeat split. Qed.

Example string_iter_example :
  string_iter [65; 0xD83D; 0xDE00; 0xD800; 66; 0xDC00]
  = [[65]; [0xD83D; 0xDE00]; [0xD800]; [66]; [0xDC00]].
Proof. reflexivity. Qed.

Example split_ws_examples :
  split_ws (js "AB CD") = [js "AB"; js "CD"] ∧
  split_ws (js "AB   CD") = [js "AB"; js "CD"] ∧
  split_ws [65; 66; 9; 10; 67; 68] = [js "AB"; js "CD"] ∧
  split_ws (js " AB") = [js ""; js "AB"] ∧
  split_ws (js "AB ") = [js "AB"; js ""] ∧
  split_ws (js "  ") = [js ""; js ""].
Proof. repeat split. Qed.

Example parseRotorStr_examples :
  Enigma.parseRotorStr (js "EKMFLGDQVZNTOWYHXUSPAIBRCJ<R") 1
  = Ok [js "EKMFLGDQVZNTOWYHXUSPAIBRCJ"; js "R"] ∧
  Enigma.parseRotorStr (js "LEYJVCNIXWPBQMDRTAKZGFUHOS") 4
  = Ok [js "LEYJVCNIXWPBQMDRTAKZGFUHOS"; js ""] ∧
  Enigma.parseRotorStr (js "ABC<DE<F") 1 = Ok [js "ABC"; js "DE"] ∧
  Enigma.parseRotorStr (js "") 1
  = Throw (OperationError (js "Rotor ${i} must be provided.")).
Proof. repeat split. Qed.

Example group5_examples :
  Enigma.group5 (js "ABCDEFGHIJKL") = js "ABCDE FGHIJ KL" ∧
  Enigma.group5 (js "ABCDEFGHIJ") = js "ABCDE FGHIJ" ∧
  Enigma.group5 (js "ABCDE") = js "ABCDE".
Proof. repeat split. Qed.

(** The double step: with rotors III, II, I from right to left standing at
    U, D, A, three key presses lead to V, D, A, then to W, E, A, where the
    right-hand rotor has carried the middle one, and then to X, F, B: the
    middle rotor steps again, and takes the left-hand one along. *)
Example double_stepping :
  let X := Config.mk
    [Config.mkRotor (js "BDFHJLCPRTXVZNYEIWGAKMUSQO") (js "W") (js "A") (js "U");
     Config.mkRotor (js "AJDKSIRUXBLHWTMCQGZNPYFVOE") (js "F") (js "A") (js "D");
     Config.mkRotor (js "EKMFLGDQVZNTOWYHXUSPAIBRCJ") (js "R") (js "A") (js "A")]
    (catalog REFLECTORS "B") (js "") in
  positions (construct X) = [20; 3; 0] ∧
  positions (construct X ≫= stepn 1) = [21; 3; 0] ∧
  positions (construct X ≫= stepn 2) = [22; 4; 0] ∧
  positions (construct X ≫= stepn 3) = [23; 5; 1].
Proof. repeat split; vm_compute; reflexivity. Qed.

(** The operation with its default arguments, which drop other characters
    and group the output in fives. *)
Example run_grouped :
  Enigma.run (js "Hello, World!")
    (Enigma.mkArgs (catalog ROTORS "III") (js "A") (js "A")
                   (catalog ROTORS "II") (js "A") (js "A")
                   (catalog ROTORS "I") (js "A") (js "A")
                   (js "") (js "A") (catalog REFLECTORS "B") (js "") true)
  = Ok (js "ILBDA AMTAZ").
Proof. vm_compute. reflexivity. Qed.

(** ** Reasoning about [result] *)

Lemma bind_Ok {A B : Type} (f : A → result B) (r : result A) (b : B) :
  r ≫= f = Ok b → ∃ a, r = Ok a ∧ f a = Ok b.
Proof. destruct r as [a|e]; simpl; [eauto | discriminate]. Qed.

Lemma foldM_app {A B : Type} (f : A → B → result A) (l1 l2 : list B) (a : A) :
  foldM f a (l1 ++ l2) = foldM f a l1 ≫= λ a', foldM f a' l2.
Proof.
  revert a. induction l1 as [|x l1 IH]; intros a; simpl; [done|].
  destruct (f a x) as [a'|e]; simpl; [apply IH | done].
Qed.

Lemma foldM_snoc {A B : Type} (f : A → B → result A) (l : list B) (x : B) (a : A) :
  foldM f a (l ++ [x]) = foldM f a l ≫= λ a', f a' x.
Proof.
  rewrite foldM_app. destruct (foldM f a l) as [a'|e]; simpl; [|done].
  by destruct (f a' x).
Qed.

(** Inversion of a successful monadic computation, one bind at a time. *)
Ltac inv_ok H :=
  repeat match type of H with
  | (_ ≫= _) = Ok _ =>
    let a := fresh "v" in let E := fresh "E" in
    apply bind_Ok in H as (a & E & H)
  | Ok _ = Ok _ => injection H as H
  | Throw _ = Ok _ => discriminate H
  | (if ?b then _ else _) = Ok _ =>
    let E := fresh "E" in destruct b eqn:E; [try discriminate H | try discriminate H]
  end.

(** ** Arithmetic of letters *)

Lemma mod_range (x : Z) : 0 ≤ Utils.mod_ x 26 < 26.
Proof. unfold Utils.mod_. apply Z.mod_pos_bound. lia. Qed.

Lemma mod_sub_add (b p : Z) : 0 ≤ b < 26 →
  Utils.mod_ (Utils.mod_ (b - p) 26 + p) 26 = b.
Proof.
  unfold Utils.mod_. intros Hb.
  rewrite Zplus_mod_idemp_l. replace (b - p + p) with b by lia.
  by apply Z.mod_small.
Qed.

Lemma mod_add_sub (c p : Z) : 0 ≤ c < 26 →
  Utils.mod_ (Utils.mod_ (c + p) 26 - p) 26 = c.
Proof.
  unfold Utils.mod_. intros Hc.
  rewrite Zminus_mod_idemp_l. replace (c + p - p) with c by lia.
  by apply Z.mod_small.
Qed.

Lemma is_upper_spec (u : Z) : is_upper u = true ↔ 65 ≤ u ≤ 90.
Proof. unfold is_upper. lia. Qed.

Lemma match_upper_spec (lo hi : nat) (s : jsstring) :
  match_upper lo hi s = true ↔
  (lo ≤ length s ≤ hi)%nat ∧ Forall (λ u, 65 ≤ u ≤ 90) s.
Proof.
  unfold match_upper. rewrite !andb_true_iff, forallb_forall, Forall_forall.
  rewrite !Nat.leb_le. setoid_rewrite is_upper_spec.
  setoid_rewrite <- list_elem_of_In. tauto.
Qed.

Lemma a2i_upper (u : Z) (permissive : bool) :
  65 ≤ u ≤ 90 → a2i [u] permissive = Ok (u - 65).
Proof.
  intros Hu. unfold a2i; simpl.
  replace ((65 <=? u) && (u <=? 90)) with true by lia. done.
Qed.

Lemma LETTERS_lookup (i : nat) :
  (i < 26)%nat → LETTERS !! i = Some [65 + Z.of_nat i].
Proof.
  intros Hi. do 26 (destruct i as [|i]; [reflexivity|]). lia.
Qed.

Lemma LETTERS_length : length LETTERS = 26%nat.
Proof. reflexivity. Qed.

(** ** Counting letters *)

Lemma size_list_to_set_le (l : list Z) :
  (size (list_to_set l : gset Z) ≤ length l)%nat.
Proof.
  induction l as [|x l IH].
  - by rewrite list_to_set_nil, size_empty.
  - rewrite list_to_set_cons. cbn [length].
    etrans; [apply Nat.eq_le_incl, size_union_alt|]. rewrite size_singleton.
    assert (size (list_to_set l ∖ {[x]} : gset Z) ≤ size (list_to_set l : gset Z))%nat
      as Hdiff.
    { apply subseteq_size. intros y Hy. by apply elem_of_difference in Hy as [? _]. }
    lia.
Qed.

Lemma size_list_to_set_NoDup (l : list Z) :
  size (list_to_set l : gset Z) = length l → NoDup l.
Proof.
  induction l as [|x l IH]; [constructor|].
  rewrite list_to_set_cons. cbn [length]. intros Hsz.
  pose proof (size_list_to_set_le l) as Hle.
  destruct (decide (x ∈ l)) as [Hin|Hnin].
  - exfalso.
    assert ({[x]} ∪ list_to_set l = (list_to_set l : gset Z)) as Heq.
    { apply subseteq_union_1_L, singleton_subseteq_l.
      by apply elem_of_list_to_set. }
    rewrite Heq in Hsz. lia.
  - constructor; [done|]. apply IH.
    rewrite size_union in Hsz
      by (apply disjoint_singleton_l; by rewrite elem_of_list_to_set).
    rewrite size_singleton in Hsz. lia.
Qed.

Lemma elem_of_alphabet (c : Z) : c ∈ alphabet ↔ 0 ≤ c < 26.
Proof.
  unfold alphabet. rewrite elem_of_list_to_set, list_elem_of_fmap.
  setoid_rewrite elem_of_seq. split.
  - intros (i & -> & Hi). lia.
  - intros Hc. exists (Z.to_nat c). lia.
Qed.

Lemma size_alphabet : size alphabet = 26%nat.
Proof.
  unfold alphabet. rewrite size_list_to_set; [by rewrite length_fmap, length_seq|].
  apply NoDup_fmap_2; [apply _ | apply NoDup_seq].
Qed.

(** A set of 26 letter indices is the whole alphabet. *)
Lemma full_alphabet (X : gset Z) :
  (∀ c, c ∈ X → 0 ≤ c < 26) → size X = 26%nat → ∀ c, 0 ≤ c < 26 → c ∈ X.
Proof.
  intros Hsub Hsz c Hc.
  assert (X ≡ alphabet) as Heq.
  { apply set_subseteq_size_equiv.
    - intros x Hx. apply elem_of_alphabet. auto.
    - rewrite size_alphabet. lia. }
  apply Heq, elem_of_alphabet. done.
Qed.

(** ** The rotor constructor *)

Section wiring.
Variable w : jsstring.
Hypothesis Hw : match_upper 26 26 w = true.

Lemma wiring_length : length w = 26%nat.
Proof. apply match_upper_spec in Hw. lia. Qed.

Lemma wiring_upper (i : nat) (u : Z) : w !! i = Some u → 65 ≤ u ≤ 90.
Proof.
  apply match_upper_spec in Hw as [_ Hall]. intros Hi.
  rewrite Forall_lookup in Hall. by eapply Hall.
Qed.

Lemma wire_Ok (maps : gmap Z Z * gmap Z Z) (i : nat) (u : Z) :
  w !! i = Some u →
  Rotor.wire w maps i
  = Ok (<[Z.of_nat i := u - 65]> maps.1, <[u - 65 := Z.of_nat i]> maps.2).
Proof.
  intros Hi. pose proof (lookup_lt_Some _ _ _ Hi) as Hlt.
  rewrite wiring_length in Hlt.
  unfold Rotor.wire, char_at. rewrite LETTERS_lookup, Hi by done. simpl.
  rewrite (a2i_upper (65 + Z.of_nat i)) by lia. simpl.
  rewrite (a2i_upper u) by (by eapply wiring_upper). simpl.
  by replace (65 + Z.of_nat i - 65) with (Z.of_nat i) by lia.
Qed.

Lemma wire_fold (k : nat) :
  (k ≤ 26)%nat →
  ∃ M RM, foldM (Rotor.wire w) (∅, ∅) (seq 0 k) = Ok (M, RM) ∧ wired w k M RM.
Proof.
  induction k as [|k IH]; intros Hk.
  - exists ∅, ∅. split; [done|]. split; [|split].
    + intros a b. rewrite lookup_empty. split; [done|].
      intros (i & ? & _). lia.
    + intros a b. by rewrite lookup_empty.
    + by rewrite dom_empty_L, take_0.
  - destruct IH as (M & RM & Hf & HM & HRM & Hdom); [lia|].
    destruct (lookup_lt_is_Some_2 w k) as [u Hu]; [rewrite wiring_length; lia|].
    exists (<[Z.of_nat k := u - 65]> M), (<[u - 65 := Z.of_nat k]> RM).
    split; [|split; [|split]].
    + rewrite seq_S, foldM_snoc, Hf. simpl. by rewrite (wire_Ok _ _ u).
    + intros a b. rewrite lookup_insert_Some, HM. split.
      * intros [[<- <-]|[_ (i & ? & ? & ?)]].
        -- exists k. split; [lia|]. split; [done|]. rewrite Hu. f_equal. lia.
        -- exists i. split; [lia|done].
      * intros (i & Hi & -> & Hwi).
        destruct (decide (i = k)) as [->|Hne].
        -- left. split; [done|]. rewrite Hu in Hwi. injection Hwi. lia.
        -- right. split; [lia|]. exists i. split; [lia|done].
    + intros a b. rewrite lookup_insert_Some.
      intros [[<- <-]|[_ Hab]].
      * exists k. split; [lia|]. split; [done|]. rewrite Hu. f_equal. lia.
      * destruct (HRM _ _ Hab) as (i & ? & ? & ?). exists i. split; [lia|done].
    + rewrite dom_insert_L, Hdom, (take_S_r _ _ u), fmap_app, list_to_set_app_L by done.
      change ((λ u0 : Z, u0 - 65) <$> [u]) with [u - 65].
      rewrite list_to_set_cons, list_to_set_nil, (right_id_L ∅ (∪)).
      apply (comm_L (∪)).
Qed.
End wiring.

(** What a successful [new Rotor(...)] guarantees: the wiring is a
    permutation of the alphabet, [map] is that permutation, [revMap] its
    inverse, and the position is in range. *)
Lemma Rotor_new_Ok (w s rs ip : jsstring) (r : Rotor.t) :
  Rotor.new w s rs ip = Ok r →
  match_upper 26 26 w = true ∧ NoDup w ∧
  (∀ a b, Rotor.map r !! a = Some b ↔
     0 ≤ a ∧ w !! Z.to_nat a = Some (b + 65)) ∧
  (∀ a b, Rotor.revMap r !! b = Some a ↔ Rotor.map r !! a = Some b) ∧
  0 ≤ Rotor.pos r < 26.
Proof.
  unfold Rotor.new. intros H.
  destruct (match_upper 26 26 w) eqn:Hw; [|discriminate]. cbn [negb] in H.
  destruct (match_upper 0 26 s) eqn:Hs; [|discriminate]. cbn [negb] in H.
  destruct (match_upper 1 1 rs) eqn:Hrs; [|discriminate]. cbn [negb] in H.
  destruct (match_upper 1 1 ip) eqn:Hip; [|discriminate]. cbn [negb] in H.
  destruct (wire_fold w Hw 26) as (M & RM & Hf & HM & HRM & Hdom); [lia|].
  rewrite LETTERS_length, Hf in H. cbn [mbind result_bind fst snd] in H.
  destruct (size RM =? 26)%nat eqn:Hsz; [|discriminate]. cbn [negb] in H.
  apply Nat.eqb_eq in Hsz.
  inv_ok H. subst r. cbn [Rotor.map Rotor.revMap Rotor.pos].
  rewrite <- size_dom, Hdom in Hsz.
  rewrite firstn_all2 in Hsz, Hdom by (rewrite (wiring_length w Hw); lia).
  assert (NoDup ((λ u, u - 65) <$> w)) as Hnd.
  { apply size_list_to_set_NoDup. by rewrite Hsz, length_fmap, (wiring_length w Hw). }
  assert (NoDup w) as Hndw by (by eapply NoDup_fmap_1).
  assert (∀ a b, M !! a = Some b ↔ 0 ≤ a ∧ w !! Z.to_nat a = Some (b + 65)) as HM'.
  { intros a b. rewrite HM. split.
    - intros (i & _ & -> & Hi). rewrite Nat2Z.id. split; [lia|done].
    - intros [Ha Hi]. exists (Z.to_nat a). split; [|split; [lia|done]].
      apply lookup_lt_Some in Hi. rewrite (wiring_length w Hw) in Hi. done. }
  split; [done|]. split; [done|]. split; [done|]. split; [|apply mod_range].
  intros a b. split.
  - intros Hab. apply HM. by apply HRM.
  - intros Hab. apply HM in Hab as (i & Hi & -> & Hwi).
    assert (b ∈ dom RM) as Hb.
    { rewrite Hdom, elem_of_list_to_set, list_elem_of_fmap.
      exists (b + 65). split; [lia|]. by eapply list_elem_of_lookup_2. }
    apply elem_of_dom in Hb as [a' Ha'].
    destruct (HRM _ _ Ha') as (j & _ & -> & Hwj).
    by rewrite (NoDup_lookup _ _ _ _ Hndw Hwi Hwj).
Qed.

Lemma Rotor_new_wf (w s rs ip : jsstring) (r : Rotor.t) :
  Rotor.new w s rs ip = Ok r → Rotor_wf r.
Proof.
  intros H. apply Rotor_new_Ok in H as (Hw & Hnd & HM & HRM & _).
  assert (∀ a, 0 ≤ a < 26 → ∃ b, Rotor.map r !! a = Some b ∧ 0 ≤ b < 26) as Htot.
  { intros a Ha.
    destruct (lookup_lt_is_Some_2 w (Z.to_nat a)) as [u Hu];
      [rewrite (wiring_length w Hw); lia|].
    pose proof (wiring_upper w Hw _ _ Hu).
    exists (u - 65). split; [|lia]. apply HM. split; [lia|].
    rewrite Hu. f_equal. lia. }
  split; [done|]. split; [|done].
  (* the 26 images are distinct, so every letter is one of them *)
  intros b Hb.
  assert (b ∈ (list_to_set ((λ u, u - 65) <$> w) : gset Z)) as Hin.
  { apply full_alphabet; [| |done].
    - intros c (u & -> & Hu)%elem_of_list_to_set%list_elem_of_fmap.
      apply list_elem_of_lookup in Hu as [i Hi].
      pose proof (wiring_upper w Hw _ _ Hi). lia.
    - rewrite size_list_to_set, length_fmap; [apply (wiring_length w Hw)|].
      apply NoDup_fmap_2; [|done]. intros x y. lia. }
  apply elem_of_list_to_set, list_elem_of_fmap in Hin as (u & -> & Hu).
  apply list_elem_of_lookup in Hu as [i Hi].
  pose proof (lookup_lt_Some _ _ _ Hi) as Hlt. rewrite (wiring_length w Hw) in Hlt.
  exists (Z.of_nat i). split; [|lia]. apply HRM, HM. split; [lia|].
  rewrite Nat2Z.id, Hi. f_equal. lia.
Qed.

(** ** The pair-map constructor *)

Lemma match_upper_2 (tok : jsstring) :
  match_upper 2 2 tok = true ↔
  ∃ x y, tok = [x; y] ∧ 65 ≤ x ≤ 90 ∧ 65 ≤ y ≤ 90.
Proof.
  rewrite match_upper_spec. split.
  - intros [Hlen Hall].
    destruct tok as [|x [|y [|z tok]]]; simpl in Hlen; try lia.
    exists x, y. split; [done|].
    apply Forall_cons in Hall as [Hx Hall]. apply Forall_cons in Hall as [Hy _].
    done.
  - intros (x & y & -> & Hx & Hy). split; [simpl; lia|].
    apply Forall_cons; split; [done|]. apply Forall_cons; split; [done|].
    constructor.
Qed.

(** One successful turn of the [forEach] callback. *)
Lemma add_pair_Ok (name : jsstring) (m m' : gmap Z Z) (tok : jsstring) :
  PairMapBase.add_pair name m tok = Ok m' →
  ∃ a b, tok = [a + 65; b + 65] ∧ 0 ≤ a < 26 ∧ 0 ≤ b < 26 ∧ a ≠ b ∧
         m !! a = None ∧ m !! b = None ∧ m' = <[b:=a]> (<[a:=b]> m).
Proof.
  unfold PairMapBase.add_pair. intros H.
  destruct (match_upper 2 2 tok) eqn:Htok; [|discriminate]. cbn [negb] in H.
  apply match_upper_2 in Htok as (x & y & -> & Hx & Hy).
  unfold char_at in H. cbn [lookup list_lookup fmap option_fmap option_map defined
    mbind result_bind] in H.
  rewrite (a2i_upper x), (a2i_upper y) in H by done.
  cbn [mbind result_bind] in H.
  destruct (x - 65 =? y - 65) eqn:Hab; [discriminate|].
  destruct (bool_decide (is_Some (m !! (x - 65)))) eqn:Ha; [discriminate|].
  destruct (bool_decide (is_Some (m !! (y - 65)))) eqn:Hb; [discriminate|].
  apply bool_decide_eq_false in Ha, Hb.
  rewrite <- eq_None_not_Some in Ha, Hb.
  injection H as <-.
  exists (x - 65), (y - 65). repeat split; try lia; try done.
  f_equal; f_equal; lia.
Qed.

Lemma add_pair_fold (name : jsstring) (ts : list jsstring) (m : gmap Z Z) :
  foldM (PairMapBase.add_pair name) ∅ ts = Ok m → paired ts m.
Proof.
  revert m. induction ts as [|tok ts IH] using rev_ind; intros m H.
  - injection H as <-. split; [|split; [constructor|constructor]].
    intros a b. rewrite lookup_empty. split; [done|].
    intros (tok & Hin & _). by apply not_elem_of_nil in Hin.
  - rewrite foldM_snoc in H. apply bind_Ok in H as (m0 & Hm0 & H).
    destruct (IH _ Hm0) as (Hlk & Hall & Hnd).
    apply add_pair_Ok in H as (a & b & -> & Ha & Hb & Hab & Hna & Hnb & ->).
    assert (∀ u, u ∈ mjoin ts → is_Some (m0 !! (u - 65))) as Hcov.
    { intros u (tok & Hu & Htok)%list_elem_of_join.
      rewrite Forall_forall in Hall.
      destruct (proj1 (match_upper_2 tok) (Hall _ Htok)) as (x & y & -> & _).
      apply list_elem_of_In in Hu as [<-|[<-|[]]].
      - exists (y - 65). apply Hlk. exists [x; y]. split; [done|]. left.
        f_equal; [lia|f_equal; lia].
      - exists (x - 65). apply Hlk. exists [x; y]. split; [done|]. right.
        f_equal; [lia|f_equal; lia]. }
    split; [|split].
    + intros a' b'. rewrite !lookup_insert_Some, Hlk.
      setoid_rewrite elem_of_app. setoid_rewrite list_elem_of_singleton.
      split.
      * intros [[<- <-]|[Hne [[<- <-]|[Hne' (tok & Hin & Htok)]]]].
        -- exists [a + 65; b + 65]. split; [by right|by right].
        -- exists [a + 65; b + 65]. split; [by right|by left].
        -- exists tok. split; [by left|done].
      * intros (tok & [Hin| ->] & Htok).
        -- assert (m0 !! a' = Some b') as Hab' by (apply Hlk; eauto).
           right. split; [congruence|]. right. split; [congruence|].
           eauto.
        -- destruct Htok as [Htok|Htok]; injection Htok as ??.
           ++ right. split; [lia|]. left. split; lia.
           ++ left. split; lia.
    + apply Forall_app. split; [done|]. constructor; [|constructor].
      apply match_upper_2. exists (a + 65), (b + 65). split; [done|lia].
    + rewrite join_app. simpl. apply NoDup_app. split; [done|]. split.
      * intros u Hu%Hcov Hin. apply list_elem_of_In in Hin as [<-|[<-|[]]].
        -- replace (a + 65 - 65) with a in Hu by lia. rewrite Hna in Hu.
           by destruct Hu.
        -- replace (b + 65 - 65) with b in Hu by lia. rewrite Hnb in Hu.
           by destruct Hu.
      * apply NoDup_cons. split; [|apply NoDup_singleton].
        rewrite list_elem_of_singleton. lia.
Qed.

Lemma paired_wf (ts : list jsstring) (m : gmap Z Z) :
  paired ts m → Pair_wf (PairMapBase.mk m).
Proof.
  intros (Hlk & Hall & Hnd) a b Hab. simpl in *.
  split; [apply Hlk; apply Hlk in Hab as (tok & ? & ?); exists tok; tauto|].
  apply Hlk in Hab as (tok & Hin & Htok).
  rewrite Forall_forall in Hall.
  destruct (proj1 (match_upper_2 tok) (Hall _ Hin)) as (x & y & -> & Hx & Hy).
  assert (x ≠ y) as Hxy.
  { apply list_elem_of_split in Hin as (l1 & l2 & ->).
    rewrite join_app in Hnd. apply NoDup_app in Hnd as (_ & _ & Hnd).
    simpl in Hnd. apply NoDup_cons in Hnd as [Hx' _].
    intros ->. apply Hx'. by left. }
  destruct Htok as [Htok|Htok]; injection Htok as ??; lia.
Qed.

Lemma PairMapBase_new_Ok (pairs name : jsstring) (p : PairMapBase.t) :
  PairMapBase.new pairs name = Ok p →
  (pairs = [] ∧ PairMapBase.map p = ∅) ∨
  (pairs ≠ [] ∧ paired (split_ws pairs) (PairMapBase.map p)).
Proof.
  unfold PairMapBase.new. intros H. case_bool_decide as Hemp.
  - injection H as <-. by left.
  - apply bind_Ok in H as (m & Hm & H). injection H as <-.
    right. split; [done|]. by eapply add_pair_fold.
Qed.

Lemma PairMapBase_new_wf (pairs name : jsstring) (p : PairMapBase.t) :
  PairMapBase.new pairs name = Ok p → Pair_wf p.
Proof.
  intros [[_ Hm]|[_ Hp]]%PairMapBase_new_Ok.
  - intros a b. rewrite Hm, lookup_empty. done.
  - destruct p as [m]. by eapply paired_wf.
Qed.

Lemma Reflector_new_Ok (pairs : jsstring) (p : PairMapBase.t) :
  Reflector.new pairs = Ok p →
  PairMapBase.new pairs (js "Reflector") = Ok p ∧ size (PairMapBase.map p) = 26%nat.
Proof.
  unfold Reflector.new. intros H. apply bind_Ok in H as (p' & Hp' & H).
  destruct (size (PairMapBase.map p') =? 26)%nat eqn:Hsz; [|discriminate].
  injection H as <-. by apply Nat.eqb_eq in Hsz.
Qed.

Lemma Reflector_new_wf (pairs : jsstring) (p : PairMapBase.t) :
  Reflector.new pairs = Ok p → Reflector_wf p.
Proof.
  intros [Hp Hsz]%Reflector_new_Ok. apply PairMapBase_new_wf in Hp.
  split; [done|]. intros c Hc. apply elem_of_dom.
  apply full_alphabet; [|idtac|done]; [|rewrite size_dom; exact Hsz].
  intros a [b Hab]%elem_of_dom. by apply Hp in Hab as (_ & _ & ? & _).
Qed.

(** ** Stepping *)

Lemma Rotor_step_neq (r : Rotor.t) : Rotor.step r ≠ r.
Proof.
  intros H. apply (f_equal Rotor.pos) in H. unfold Rotor.step in H.
  cbn [Rotor.pos] in H. unfold Utils.mod_ in H.
  pose proof (Z.mod_pos_bound (Rotor.pos r + 1) 26 ltac:(lia)) as Hb.
  destruct (decide (Rotor.pos r = 25)) as [E|E].
  - rewrite E in H. by vm_compute in H.
  - rewrite Z.mod_small in H by lia. lia.
Qed.

Lemma step_rotors (r0 r1 r2 : Rotor.t) (rest : list Rotor.t)
    (refl plug : PairMapBase.t) :
  EnigmaBase.step (EnigmaBase.mk (r0 :: r1 :: r2 :: rest) refl plug)
  = Ok (EnigmaBase.mk
         (Rotor.step r0
          :: (if advance1 r0 r1 then Rotor.step r1 else r1)
          :: (if advance2 r0 r1 then Rotor.step r2 else r2)
          :: rest) refl plug).
Proof.
  unfold EnigmaBase.step, advance2, advance1, EnigmaBase.set_rotors. simpl.
  destruct (EnigmaBase.has (Rotor.steps r0) _); simpl;
    destruct (EnigmaBase.has (Rotor.steps r1) _); simpl; reflexivity.
Qed.

Lemma step_wf (m : EnigmaBase.t) :
  Machine_wf m → ∃ m', EnigmaBase.step m = Ok m' ∧ Machine_wf m'.
Proof.
  destruct m as [rs refl plug]. intros (Hrs & Hlen & Hrefl & Hplug).
  simpl in *.
  destruct rs as [|r0 [|r1 [|r2 rest]]]; simpl in Hlen; try lia.
  rewrite step_rotors. eexists. split; [done|].
  apply Forall_cons in Hrs as [H0 Hrs]. apply Forall_cons in Hrs as [H1 Hrs].
  apply Forall_cons in Hrs as [H2 Hrs].
  split; [|split; [simpl; lia|done]]. simpl.
  repeat (apply Forall_cons; split); try done.
  - by destruct (advance1 r0 r1).
  - by destruct (advance2 r0 r1).
Qed.

(** ** The signal path *)

Lemma Rotor_transform_rev (r : Rotor.t) (c : Z) :
  Rotor_wf r → 0 ≤ c < 26 →
  ∃ v, Rotor.transform r (Some c) = Some v ∧ 0 ≤ v < 26 ∧
       Rotor.revTransform r (Some v) = Some c.
Proof.
  intros (Hm & _ & Hinv) Hc.
  destruct (Hm (Utils.mod_ (c + Rotor.pos r) 26)) as (b & Hb & Hbr);
    [apply mod_range|].
  exists (Utils.mod_ (b - Rotor.pos r) 26).
  split; [|split; [apply mod_range|]].
  - unfold Rotor.transform. simpl. by rewrite Hb.
  - unfold Rotor.revTransform. simpl. rewrite mod_sub_add by done.
    apply Hinv in Hb. rewrite Hb. simpl. by rewrite mod_add_sub.
Qed.

Lemma Rotor_revTransform_fwd (r : Rotor.t) (y : Z) :
  Rotor_wf r → 0 ≤ y < 26 →
  ∃ x, Rotor.revTransform r (Some y) = Some x ∧ 0 ≤ x < 26 ∧
       Rotor.transform r (Some x) = Some y.
Proof.
  intros (_ & Hrm & Hinv) Hy.
  destruct (Hrm (Utils.mod_ (y + Rotor.pos r) 26)) as (a & Ha & Har);
    [apply mod_range|].
  exists (Utils.mod_ (a - Rotor.pos r) 26).
  split; [|split; [apply mod_range|]].
  - unfold Rotor.revTransform. simpl. by rewrite Ha.
  - unfold Rotor.transform. simpl. rewrite mod_sub_add by done.
    apply Hinv in Ha. rewrite Ha. simpl. by rewrite mod_add_sub.
Qed.

Lemma forwards_cons (r : Rotor.t) (rs : list Rotor.t) (x : num) :
  forwards (r :: rs) x = forwards rs (Rotor.transform r x).
Proof. reflexivity. Qed.

Lemma backwards_cons (r : Rotor.t) (rs : list Rotor.t) (x : num) :
  backwards (r :: rs) x = Rotor.revTransform r (backwards rs x).
Proof. unfold backwards. by rewrite reverse_cons, foldl_app. Qed.

Lemma forwards_backwards (rs : list Rotor.t) (c : Z) :
  Forall Rotor_wf rs → 0 ≤ c < 26 →
  ∃ v, forwards rs (Some c) = Some v ∧ 0 ≤ v < 26 ∧
       backwards rs (Some v) = Some c.
Proof.
  intros Hrs. revert c. induction Hrs as [|r rs Hr Hrs IH]; intros c Hc.
  - exists c. done.
  - destruct (Rotor_transform_rev r c Hr Hc) as (c1 & Hc1 & Hr1 & Hb1).
    destruct (IH c1 Hr1) as (v & Hv & Hvr & Hbv).
    exists v. split; [|split; [done|]].
    + by rewrite forwards_cons, Hc1.
    + by rewrite backwards_cons, Hbv.
Qed.

Lemma backwards_forwards (rs : list Rotor.t) (y : Z) :
  Forall Rotor_wf rs → 0 ≤ y < 26 →
  ∃ x, backwards rs (Some y) = Some x ∧ 0 ≤ x < 26 ∧
       forwards rs (Some x) = Some y.
Proof.
  intros Hrs. revert y. induction Hrs as [|r rs Hr Hrs IH]; intros y Hy.
  - exists y. done.
  - destruct (IH y Hy) as (x1 & Hx1 & Hr1 & Hf1).
    destruct (Rotor_revTransform_fwd r x1 Hr Hr1) as (x & Hx & Hxr & Hfx).
    exists x. split; [|split; [done|]].
    + by rewrite backwards_cons, Hx1.
    + by rewrite forwards_cons, Hfx.
Qed.

Lemma Pair_transform_invol (p : PairMapBase.t) (c : Z) :
  Pair_wf p → 0 ≤ c < 26 →
  ∃ v, PairMapBase.transform p (Some c) = Some v ∧ 0 ≤ v < 26 ∧
       PairMapBase.transform p (Some v) = Some c.
Proof.
  intros Hp Hc. unfold PairMapBase.transform. simpl.
  destruct (PairMapBase.map p !! c) as [b|] eqn:Hb.
  - destruct (Hp _ _ Hb) as (Hba & _ & _ & Hbr).
    exists b. by rewrite Hba.
  - exists c. by rewrite Hb.
Qed.

Lemma Reflector_transform_invol (p : PairMapBase.t) (c : Z) :
  Reflector_wf p → 0 ≤ c < 26 →
  ∃ v, PairMapBase.transform p (Some c) = Some v ∧ 0 ≤ v < 26 ∧ v ≠ c ∧
       PairMapBase.transform p (Some v) = Some c.
Proof.
  intros [Hp Htot] Hc. unfold PairMapBase.transform. simpl.
  destruct (Htot c Hc) as [b Hb]. rewrite Hb.
  destruct (Hp _ _ Hb) as (Hba & Hne & _ & Hbr).
  exists b. rewrite Hba. repeat split; try done; try lia.
Qed.

Lemma signal_unfold (m : EnigmaBase.t) (x : num) :
  EnigmaBase.signal m x
  = PairMapBase.transform (EnigmaBase.plugboard m)
      (backwards (EnigmaBase.rotors m)
        (PairMapBase.transform (EnigmaBase.reflector m)
          (forwards (EnigmaBase.rotors m)
            (PairMapBase.transform (EnigmaBase.plugboard m) x)))).
Proof. reflexivity. Qed.

(** At a fixed rotor state the signal path is an involution of the
    alphabet without fixed points. *)
Lemma signal_invol (m : EnigmaBase.t) (c : Z) :
  Machine_wf m → 0 ≤ c < 26 →
  ∃ v, EnigmaBase.signal m (Some c) = Some v ∧ 0 ≤ v < 26 ∧ v ≠ c ∧
       EnigmaBase.signal m (Some v) = Some c.
Proof.
  intros (Hrs & _ & Hrefl & Hplug) Hc.
  destruct (Pair_transform_invol _ c Hplug Hc) as (c1 & Hc1 & Hr1 & Hc1').
  destruct (forwards_backwards _ c1 Hrs Hr1) as (c2 & Hc2 & Hr2 & Hc2').
  destruct (Reflector_transform_invol _ c2 Hrefl Hr2) as (c3 & Hc3 & Hr3 & Hne & Hc3').
  destruct (backwards_forwards _ c3 Hrs Hr3) as (c4 & Hc4 & Hr4 & Hc4').
  destruct (Pair_transform_invol _ c4 Hplug Hr4) as (v & Hv & Hrv & Hv').
  exists v. rewrite !signal_unfold.
  split; [by rewrite Hc1, Hc2, Hc3, Hc4, Hv|]. split; [done|]. split.
  - intros ->. apply Hne.
    assert (c4 = c1) as -> by congruence. congruence.
  - by rewrite Hv', Hc4', Hc3', Hc2', Hc1'.
Qed.

(** ** Characters of a string *)

Lemma string_iter_ind (P : jsstring → Prop) :
  P [] →
  (∀ u, P [u]) →
  (∀ u v s, is_high_surrogate u && is_low_surrogate v = true →
     P s → P (u :: v :: s)) →
  (∀ u v s, is_high_surrogate u && is_low_surrogate v = false →
     P (v :: s) → P (u :: v :: s)) →
  ∀ s, P s.
Proof.
  intros Hnil Hone Hpair Hsingle s.
  enough (P s ∧ ∀ u, P (u :: s)) by tauto.
  induction s as [|v s [IH1 IH2]]; [by split|].
  split; [apply IH2|]. intros u.
  destruct (is_high_surrogate u && is_low_surrogate v) eqn:E; auto.
Qed.

Lemma string_iter_pair (u v : Z) (s : jsstring) :
  is_high_surrogate u && is_low_surrogate v = true →
  string_iter (u :: v :: s) = [u; v] :: string_iter s.
Proof. intros E. simpl. by rewrite E. Qed.

Lemma string_iter_single (u v : Z) (s : jsstring) :
  is_high_surrogate u && is_low_surrogate v = false →
  string_iter (u :: v :: s) = [u] :: string_iter (v :: s).
Proof. intros E. cbn [string_iter]. by rewrite E. Qed.

Lemma string_iter_chunks (s : jsstring) : Forall chunk (string_iter s).
Proof.
  induction s as [|u|u v s E IH|u v s E IH] using string_iter_ind.
  - constructor.
  - constructor; [|constructor]. left. by exists u.
  - rewrite string_iter_pair by done. constructor; [|done].
    right. by exists u, v.
  - rewrite string_iter_single by done. constructor; [|done].
    left. by exists u.
Qed.

Lemma string_iter_join (s : jsstring) : mjoin (string_iter s) = s.
Proof.
  induction s as [|u|u v s E IH|u v s E IH] using string_iter_ind.
  - done.
  - done.
  - rewrite string_iter_pair by done. simpl. by rewrite IH.
  - rewrite string_iter_single by done.
    change (mjoin ([u] :: string_iter (v :: s))) with (u :: mjoin (string_iter (v :: s))).
    by rewrite IH.
Qed.

Lemma string_iter_canonical (s : jsstring) : canonical (string_iter s).
Proof.
  induction s as [|u|u v s E IH|u v s E IH] using string_iter_ind.
  - constructor.
  - constructor; [|constructor]. simpl. by rewrite andb_false_r.
  - rewrite string_iter_pair by done. by constructor.
  - rewrite string_iter_single by done. constructor; [|done].
    destruct s as [|v' s]; [done|].
    cbn [string_iter].
    by destruct (is_high_surrogate v && is_low_surrogate v').
Qed.

Lemma canonical_string_iter (cs : list jsstring) :
  canonical cs → string_iter (mjoin cs) = cs.
Proof.
  induction 1 as [|h lo cs E Hcs IH|u cs E Hcs IH].
  - done.
  - change (mjoin ([h; lo] :: cs)) with (h :: lo :: mjoin cs).
    by rewrite string_iter_pair, IH.
  - change (mjoin ([u] :: cs)) with (u :: mjoin cs).
    destruct Hcs as [|h lo cs E' Hcs|v cs E' Hcs].
    + done.
    + change (mjoin ([h; lo] :: cs)) with (h :: lo :: mjoin cs) in *.
      by rewrite string_iter_single, IH.
    + change (mjoin ([v] :: cs)) with (v :: mjoin cs) in *.
      by rewrite string_iter_single, IH.
Qed.

Lemma join_fmap_fmap (f : Z → Z) (cs : list jsstring) :
  mjoin (fmap f <$> cs) = f <$> mjoin cs.
Proof.
  induction cs as [|c cs IH]; [done|].
  rewrite fmap_cons. simpl. by rewrite fmap_app, IH.
Qed.

(** ** The loop of [crypt] *)

Lemma a2i_letter (u : Z) :
  is_letter u = true → a2i [u] true = Ok (upcase u - 65).
Proof.
  unfold is_letter, upcase, a2i. simpl. intros Hu.
  destruct ((65 <=? u) && (u <=? 90)) eqn:E1.
  - replace ((97 <=? u) && (u <=? 122)) with false by lia. done.
  - simpl in Hu. rewrite Hu. f_equal. lia.
Qed.

Lemma a2i_other (u : Z) : is_letter u = false → a2i [u] true = Ok (-1).
Proof.
  unfold is_letter, a2i. simpl. intros Hu.
  apply orb_false_iff in Hu as [-> ->]. done.
Qed.

Lemma a2i_pair (h lo : Z) :
  is_high_surrogate h && is_low_surrogate lo = true → a2i [h; lo] true = Ok (-1).
Proof.
  intros E. unfold a2i, Utils.ord. rewrite E.
  unfold is_high_surrogate, is_low_surrogate in E.
  replace ((65 <=? _) && (_ <=? 90)) with false by lia.
  replace ((97 <=? _) && (_ <=? 122)) with false by lia. done.
Qed.

Lemma a2i_range (l : jsstring) (c : Z) :
  a2i l true = Ok c → c = -1 ∨ 0 ≤ c < 26.
Proof.
  unfold a2i. destruct (Utils.ord l) as [i|]; [|intros [= <-]; by left].
  destruct ((65 <=? i) && (i <=? 90)) eqn:E1; [intros [= <-]; lia|].
  destruct ((97 <=? i) && (i <=? 122)) eqn:E2; intros [= <-]; lia.
Qed.

Lemma i2a_Ok (v : Z) : 0 ≤ v < 26 → i2a (Some v) = Ok [v + 65].
Proof.
  intros Hv. unfold i2a, Utils.chr.
  replace ((0 <=? v) && (v <? 26)) with true by lia.
  by replace (65535 <? v + 65) with false by lia.
Qed.

Lemma i2a_inv (x : num) (l : jsstring) :
  i2a x = Ok l → ∃ v, x = Some v ∧ 0 ≤ v < 26 ∧ l = [v + 65].
Proof.
  destruct x as [v|]; [|discriminate]. unfold i2a.
  destruct ((0 <=? v) && (v <? 26)) eqn:E; [|discriminate].
  intros [= <-]. exists v. split; [done|]. split; [lia|].
  unfold Utils.chr. by replace (0xFFFF <? v + 65) with false by lia.
Qed.

(** The two ways a turn of the loop can end normally. *)
Lemma crypt_char_inv (m m' : EnigmaBase.t) (acc acc' l : jsstring) :
  EnigmaBase.crypt_char (m, acc) l = Ok (m', acc') →
  (a2i l true = Ok (-1) ∧ m' = m ∧ acc' = acc ++ l) ∨
  (∃ c v, a2i l true = Ok c ∧ 0 ≤ c < 26 ∧ EnigmaBase.step m = Ok m' ∧
          EnigmaBase.signal m' (Some c) = Some v ∧ 0 ≤ v < 26 ∧
          acc' = acc ++ [v + 65]).
Proof.
  unfold EnigmaBase.crypt_char. intros H.
  apply bind_Ok in H as (c & Hc & H). cbn [fst snd] in H.
  destruct (c =? -1) eqn:E.
  - left. injection H as <- <-. by replace c with (-1) in Hc by lia.
  - right. apply bind_Ok in H as (m1 & Hm1 & H).
    apply bind_Ok in H as (o & Ho & H). injection H as <- <-.
    apply i2a_inv in Ho as (v & Hv & Hvr & ->).
    exists c, v. destruct (a2i_range _ _ Hc); [lia|]. done.
Qed.

Lemma crypt_char_other (m : EnigmaBase.t) (acc l : jsstring) :
  a2i l true = Ok (-1) → EnigmaBase.crypt_char (m, acc) l = Ok (m, acc ++ l).
Proof. intros H. unfold EnigmaBase.crypt_char. by rewrite H. Qed.

Lemma crypt_char_letter (m m' : EnigmaBase.t) (acc l : jsstring) (c v : Z) :
  a2i l true = Ok c → 0 ≤ c < 26 → EnigmaBase.step m = Ok m' →
  EnigmaBase.signal m' (Some c) = Some v → 0 ≤ v < 26 →
  EnigmaBase.crypt_char (m, acc) l = Ok (m', acc ++ [v + 65]).
Proof.
  intros Hc Hcr Hm' Hv Hvr. unfold EnigmaBase.crypt_char.
  rewrite Hc. cbn [mbind result_bind fst snd].
  replace (c =? -1) with false by lia.
  rewrite Hm'. cbn [mbind result_bind]. rewrite Hv, i2a_Ok by done. done.
Qed.

Lemma a2i_chunk (l : jsstring) (c : Z) :
  chunk l → a2i l true = Ok c → 0 ≤ c < 26 →
  ∃ u, l = [u] ∧ is_letter u = true ∧ c = upcase u - 65.
Proof.
  intros [[u ->]|(h & lo & -> & E)] Hc Hcr.
  - exists u. destruct (is_letter u) eqn:Hu.
    + rewrite a2i_letter in Hc by done. by injection Hc as <-.
    + rewrite a2i_other in Hc by done. injection Hc as <-. lia.
  - rewrite a2i_pair in Hc by done. injection Hc as <-. lia.
Qed.

(** Every normal run of the loop, on any machine: characters that are not
    letters are copied, every letter gives one upper-case letter, and the
    machine has stepped once per letter. *)
Lemma crypt_fold_inv (cs : list jsstring) :
  Forall chunk cs →
  ∀ (m m' : EnigmaBase.t) (acc acc' : jsstring),
    foldM EnigmaBase.crypt_char (m, acc) cs = Ok (m', acc') →
    ∃ outs, acc' = acc ++ mjoin outs ∧ Forall2 (enc any_letter) cs outs ∧
            stepn (length (filter (λ c, letter_chunk c = true) cs)) m = Ok m'.
Proof.
  induction 1 as [|c cs Hc Hcs IH]; intros m m' acc acc' H.
  - injection H as <- <-. exists []. by rewrite app_nil_r.
  - cbn [foldM] in H. apply bind_Ok in H as ([m1 acc1] & H1 & H).
    destruct (IH _ _ _ _ H) as (outs & -> & Henc & Hst).
    apply crypt_char_inv in H1
      as [(Ha & -> & ->)|(n & v & Ha & Hn & Hm1 & Hv & Hvr & ->)].
    + exists (c :: outs). split; [by rewrite <- app_assoc|].
      split; [constructor; [by left|done]|].
      rewrite filter_cons_False; [done|]. unfold letter_chunk. by rewrite Ha.
    + destruct (a2i_chunk _ _ Hc Ha Hn) as (u & -> & Hu & ->).
      exists ([v + 65] :: outs). split; [by rewrite <- app_assoc|].
      split; [constructor; [|done]|].
      * right. exists u, (v + 65). repeat split; try done; lia.
      * rewrite filter_cons_True.
        -- cbn [length stepn]. by rewrite Hm1.
        -- unfold letter_chunk. rewrite Ha. apply negb_true_iff. lia.
Qed.

Lemma upcase_letter (u : Z) : is_letter u = true → 65 ≤ upcase u ≤ 90.
Proof. unfold is_letter, upcase. destruct ((97 <=? u) && (u <=? 122)) eqn:E; lia. Qed.

Lemma upcase_upper (v : Z) : 65 ≤ v ≤ 90 → upcase v = v ∧ is_letter v = true.
Proof.
  intros Hv. unfold upcase, is_letter.
  replace ((97 <=? v) && (v <=? 122)) with false by lia.
  replace ((65 <=? v) && (v <=? 90)) with true by lia. done.
Qed.

Lemma upcase_other (u : Z) : is_letter u = false → upcase u = u.
Proof.
  unfold is_letter, upcase. intros [_ ->]%orb_false_iff. done.
Qed.

Lemma surrogate_other (u : Z) :
  is_high_surrogate u || is_low_surrogate u = true → is_letter u = false.
Proof. unfold is_high_surrogate, is_low_surrogate, is_letter. lia. Qed.

(** A character that is no letter has no letter among its code units. *)
Lemma other_chunk (c : jsstring) :
  chunk c → a2i c true = Ok (-1) → Forall (λ u, is_letter u = false) c.
Proof.
  intros [[u ->]|(h & lo & -> & E)] Ha.
  - constructor; [|constructor]. destruct (is_letter u) eqn:Hu; [|done].
    rewrite a2i_letter in Ha by done. injection Ha as Ha.
    pose proof (upcase_letter u Hu). lia.
  - apply andb_true_iff in E as [Eh El].
    constructor; [|constructor; [|constructor]]; apply surrogate_other.
    + by rewrite Eh.
    + by rewrite El, orb_true_r.
Qed.

(** A valid machine never fails: the loop runs to its end from any state,
    no letter is put out for itself, and the same machine run over the
    output gives the input back in upper case. *)
Lemma crypt_fold_wf (cs : list jsstring) :
  Forall chunk cs →
  ∀ (m : EnigmaBase.t) (acc acc' : jsstring),
    Machine_wf m →
    ∃ m' outs,
      foldM EnigmaBase.crypt_char (m, acc) cs = Ok (m', acc ++ mjoin outs) ∧
      Machine_wf m' ∧ Forall2 (enc not_itself) cs outs ∧
      foldM EnigmaBase.crypt_char (m, acc') outs
      = Ok (m', acc' ++ mjoin (fmap upcase <$> cs)).
Proof.
  induction 1 as [|c cs Hc Hcs IH]; intros m acc acc' Hm.
  - exists m, []. rewrite !app_nil_r.
    split; [done|]. split; [done|]. split; [constructor|done].
  - destruct (a2i c true) as [n|e] eqn:Ha.
    2:{ exfalso. destruct Hc as [[u ->]|(h & lo & -> & E)].
        - destruct (is_letter u) eqn:Hu.
          + by rewrite a2i_letter in Ha.
          + by rewrite a2i_other in Ha.
        - by rewrite a2i_pair in Ha. }
    destruct (a2i_range _ _ Ha) as [->|Hn].
    + (* not a letter *)
      destruct (IH m (acc ++ c) (acc' ++ c) Hm) as (m' & outs & Hf & Hm' & Henc & Hb).
      exists m', (c :: outs). split; [|split; [done|split]].
      * cbn [foldM]. rewrite crypt_char_other by done.
        cbn [mbind result_bind]. rewrite Hf. by rewrite <- app_assoc.
      * constructor; [by left|done].
      * cbn [foldM]. rewrite crypt_char_other by done.
        cbn [mbind result_bind]. rewrite Hb, fmap_cons.
        replace (upcase <$> c) with c; [by rewrite <- app_assoc|].
        pose proof (other_chunk c Hc Ha) as Hall.
        clear -Hall. induction Hall as [|u c Hu Hall IHc]; [done|].
        by rewrite fmap_cons, upcase_other, <- IHc.
    + (* a letter *)
      destruct (a2i_chunk _ _ Hc Ha Hn) as (u & -> & Hu & ->).
      destruct (step_wf m Hm) as (m1 & Hm1 & Hwf1).
      destruct (signal_invol m1 _ Hwf1 Hn) as (v & Hv & Hvr & Hne & Hv').
      destruct (IH m1 (acc ++ [v + 65]) (acc' ++ [upcase u]) Hwf1)
        as (m' & outs & Hf & Hm' & Henc & Hb).
      destruct (upcase_upper (v + 65)) as [Hup Hlet]; [lia|].
      exists m', ([v + 65] :: outs). split; [|split; [done|split]].
      * cbn [foldM]. rewrite (crypt_char_letter m m1 acc [u] _ v) by done.
        cbn [mbind result_bind]. rewrite Hf. by rewrite <- app_assoc.
      * constructor; [|done]. right. exists u, (v + 65).
        repeat split; try done; try lia. unfold not_itself. lia.
      * cbn [foldM].
        rewrite (crypt_char_letter m m1 acc' [v + 65] v (upcase u - 65)); try done.
        -- cbn [mbind result_bind].
           replace (upcase u - 65 + 65) with (upcase u) by lia.
           rewrite Hb, fmap_cons. by rewrite <- app_assoc.
        -- rewrite a2i_letter by done. rewrite Hup. f_equal. lia.
Qed.

(** Joining the output characters yields the same characters again. *)
Lemma enc_starts_low (R : Z → Z → Prop) (cs outs : list jsstring) :
  Forall2 (enc R) cs outs → starts_low outs = starts_low cs.
Proof.
  destruct 1 as [|c o cs outs Hco _]; [done|].
  destruct Hco as [[_ ->]|(u & v & -> & Hu & -> & Hv & _)]; [done|].
  simpl. unfold is_low_surrogate. unfold is_letter in Hu. lia.
Qed.

Lemma enc_canonical (R : Z → Z → Prop) (cs outs : list jsstring) :
  canonical cs → Forall2 (enc R) cs outs → canonical outs.
Proof.
  intros Hcs. revert outs.
  induction Hcs as [|h lo cs E Hcs IH|u cs E Hcs IH]; intros outs Henc.
  - apply Forall2_nil_inv_l in Henc as ->. constructor.
  - apply Forall2_cons_inv_l in Henc as (o & outs' & Ho & Henc & ->).
    destruct Ho as [[_ ->]|(u & v & [=] & _)].
    constructor; [done|]. by apply IH.
  - apply Forall2_cons_inv_l in Henc as (o & outs' & Ho & Henc & ->).
    destruct Ho as [[_ ->]|(u' & v & [= <-] & Hu & -> & Hv & _)].
    + constructor; [|by apply IH]. by rewrite (enc_starts_low R cs outs').
    + constructor; [|by apply IH].
      unfold is_high_surrogate. replace ((55296 <=? v) && (v <? 56320)) with false by lia.
      done.
Qed.

Lemma enc_units (R : Z → Z → Prop) (cs outs : list jsstring) :
  Forall chunk cs → Forall2 (enc R) cs outs →
  Forall2 (enc_unit R) (mjoin cs) (mjoin outs).
Proof.
  intros Hcs Henc. induction Henc as [|c o cs outs Hco Henc IH]; [constructor|].
  apply Forall_cons in Hcs as [Hc Hcs]. simpl. apply Forall2_app; [|by apply IH].
  destruct Hco as [[Ha ->]|(u & v & -> & Hu & -> & Hv & HR)].
  - pose proof (other_chunk c Hc Ha) as Hall. clear -Hall.
    induction Hall as [|u c Hu Hall IHc]; constructor; [|done].
    unfold enc_unit. by rewrite Hu.
  - constructor; [|constructor]. unfold enc_unit. by rewrite Hu.
Qed.

Lemma enc_unit_length (R : Z → Z → Prop) (input out : jsstring) :
  Forall2 (enc_unit R) input out → length out = length input.
Proof. intros H. symmetry. by eapply Forall2_length. Qed.

(** ** Constructed machines *)

Lemma traverse_Ok {A B : Type} (f : A → result B) (l : list A) (l' : list B) :
  traverse f l = Ok l' → Forall2 (λ x y, f x = Ok y) l l'.
Proof.
  revert l'. induction l as [|x l IH]; intros l' H.
  - injection H as <-. constructor.
  - cbn [traverse] in H. apply bind_Ok in H as (y & Hy & H).
    apply bind_Ok in H as (ys & Hys & H). injection H as <-.
    constructor; [done|]. by apply IH.
Qed.

Lemma EnigmaMachine_new_Ok (rs : list Rotor.t) (refl plug : PairMapBase.t)
    (m : EnigmaBase.t) :
  EnigmaMachine.new rs refl plug = Ok m →
  m = EnigmaBase.mk rs refl plug ∧ (length rs = 3 ∨ length rs = 4)%nat.
Proof.
  unfold EnigmaMachine.new, EnigmaBase.new.
  destruct (length rs =? 3)%nat eqn:E3; [|destruct (length rs =? 4)%nat eqn:E4];
    cbn [negb andb]; intros [= <-].
  - apply Nat.eqb_eq in E3. auto.
  - apply Nat.eqb_eq in E4. auto.
Qed.

Lemma construct_Ok (X : Config.t) (m : EnigmaBase.t) :
  construct X = Ok m →
  ∃ rs refl plug,
    m = EnigmaBase.mk rs refl plug ∧
    Forall2 (λ c r, Rotor.new (Config.wiring c) (Config.steps c)
                      (Config.ringSetting c) (Config.initialPosition c) = Ok r)
            (Config.rotors X) rs ∧
    Reflector.new (Config.reflector X) = Ok refl ∧
    Plugboard.new (Config.plugboard X) = Ok plug ∧
    (length rs = 3 ∨ length rs = 4)%nat.
Proof.
  unfold construct. intros H.
  apply bind_Ok in H as (rs & Hrs & H). apply bind_Ok in H as (refl & Hrefl & H).
  apply bind_Ok in H as (plug & Hplug & H).
  apply EnigmaMachine_new_Ok in H as [-> Hlen].
  exists rs, refl, plug. split; [done|]. split; [|done].
  by apply traverse_Ok in Hrs.
Qed.

Lemma construct_wf (X : Config.t) (m : EnigmaBase.t) :
  construct X = Ok m → Machine_wf m.
Proof.
  intros (rs & refl & plug & -> & Hrs & Hrefl & Hplug & Hlen)%construct_Ok.
  split; [|split; [simpl; lia|split]]; simpl.
  - clear Hlen. induction Hrs as [|c r cs rs Hr Hrs IH]; constructor; [|done].
    by eapply Rotor_new_wf.
  - by eapply Reflector_new_wf.
  - by eapply PairMapBase_new_wf.
Qed.

(** ** Whole runs of [crypt] *)

Lemma letter_chunk_count (s : jsstring) :
  length (filter (λ c, letter_chunk c = true) (string_iter s))
  = length (filter (λ u, is_letter u = true) s).
Proof.
  assert (∀ u, letter_chunk [u] = is_letter u) as Hone.
  { intros u. unfold letter_chunk. destruct (is_letter u) eqn:Hu.
    - rewrite a2i_letter by done. pose proof (upcase_letter u Hu).
      apply negb_true_iff. lia.
    - by rewrite a2i_other. }
  induction s as [|u|u v s E IH|u v s E IH] using string_iter_ind.
  - done.
  - cbn [string_iter]. rewrite !filter_cons, !filter_nil, Hone.
    by destruct (is_letter u).
  - rewrite string_iter_pair by done.
    assert (letter_chunk [u; v] = false) as Hp
      by (unfold letter_chunk; by rewrite a2i_pair).
    apply andb_true_iff in E as [Eh El].
    assert (is_letter u = false) as Hu by (apply surrogate_other; by rewrite Eh).
    assert (is_letter v = false) as Hv
      by (apply surrogate_other; by rewrite El, orb_true_r).
    rewrite filter_cons_False by (by rewrite Hp).
    rewrite (filter_cons_False _ u) by (by rewrite Hu).
    by rewrite (filter_cons_False _ v) by (by rewrite Hv).
  - rewrite string_iter_single by done.
    rewrite filter_cons, (filter_cons _ u), Hone.
    destruct (is_letter u); [rewrite !decide_True by done|rewrite !decide_False by done];
      cbn [length]; by rewrite IH.
Qed.

(** Any run of [crypt] that returns, on any machine. *)
Lemma crypt_inv (m m' : EnigmaBase.t) (input out : jsstring) :
  EnigmaBase.crypt m input = Ok (m', out) →
  Forall2 (enc_unit any_letter) input out ∧
  stepn (length (filter (λ u, is_letter u = true) input)) m = Ok m'.
Proof.
  unfold EnigmaBase.crypt. intros H.
  apply crypt_fold_inv in H as (outs & -> & Henc & Hst);
    [|apply string_iter_chunks].
  rewrite letter_chunk_count in Hst. split; [|done].
  rewrite <- (string_iter_join input) at 1.
  apply enc_units; [apply string_iter_chunks|done].
Qed.

(** Runs of a valid machine. *)
Lemma crypt_wf (m : EnigmaBase.t) (input : jsstring) :
  Machine_wf m →
  ∃ m' out,
    EnigmaBase.crypt m input = Ok (m', out) ∧ Machine_wf m' ∧
    Forall2 (enc_unit not_itself) input out ∧
    EnigmaBase.crypt m out = Ok (m', upcase <$> input).
Proof.
  intros Hm.
  destruct (crypt_fold_wf (string_iter input) (string_iter_chunks input) m [] [] Hm)
    as (m' & outs & Hf & Hm' & Henc & Hb).
  exists m', (mjoin outs). split; [done|]. split; [done|]. split.
  - rewrite <- (string_iter_join input) at 1.
    apply enc_units; [apply string_iter_chunks|done].
  - unfold EnigmaBase.crypt. rewrite canonical_string_iter.
    + by rewrite Hb, join_fmap_fmap, string_iter_join.
    + eapply enc_canonical; [apply string_iter_canonical|done].
Qed.

(** ** What the constructors throw *)

Lemma a2i_throws (c : jsstring) (permissive : bool) (e : exn) :
  a2i c permissive = Throw e → is_OperationError e.
Proof.
  unfold a2i. intros H.
  repeat match type of H with
  | context [match ?x with _ => _ end] => destruct x
  end; try discriminate; injection H as <-; by eexists.
Qed.

Lemma bind_Throw {A B : Type} (f : A → result B) (r : result A) (e : exn) :
  r ≫= f = Throw e → r = Throw e ∨ ∃ a, r = Ok a ∧ f a = Throw e.
Proof. destruct r as [a|e']; simpl; [eauto|intros [= ->]; by left]. Qed.

Lemma foldM_throws {A B : Type} (P : exn → Prop) (f : A → B → result A)
    (l : list B) (a : A) (e : exn) :
  (∀ a x e, f a x = Throw e → P e) → foldM f a l = Throw e → P e.
Proof.
  intros Hf. revert a. induction l as [|x l IH]; intros a H; [discriminate|].
  cbn [foldM] in H. apply bind_Throw in H as [H|(a' & _ & H)]; eauto.
Qed.

Lemma traverse_throws {A B : Type} (P : exn → Prop) (f : A → result B)
    (l : list A) (e : exn) :
  (∀ x e, f x = Throw e → P e) → traverse f l = Throw e → P e.
Proof.
  intros Hf. induction l as [|x l IH]; intros H; [discriminate|].
  cbn [traverse] in H. apply bind_Throw in H as [H|(y & _ & H)]; [eauto|].
  apply bind_Throw in H as [H|(ys & _ & H)]; [eauto|discriminate].
Qed.

Lemma Rotor_new_throws (w s rs ip : jsstring) (e : exn) :
  Rotor.new w s rs ip = Throw e → is_OperationError e.
Proof.
  unfold Rotor.new. intros H.
  destruct (match_upper 26 26 w) eqn:Hw; cbn [negb] in H;
    [|injection H as <-; by eexists].
  destruct (match_upper 0 26 s); cbn [negb] in H; [|injection H as <-; by eexists].
  destruct (match_upper 1 1 rs); cbn [negb] in H; [|injection H as <-; by eexists].
  destruct (match_upper 1 1 ip); cbn [negb] in H; [|injection H as <-; by eexists].
  destruct (wire_fold w Hw 26) as (M & RM & Hf & _); [lia|].
  rewrite LETTERS_length, Hf in H. cbn [mbind result_bind fst snd] in H.
  destruct (size RM =? 26)%nat; cbn [negb] in H; [|injection H as <-; by eexists].
  apply bind_Throw in H as [H|(n & _ & H)]; [by eapply a2i_throws|].
  apply bind_Throw in H as [H|(st & _ & H)].
  - eapply (foldM_throws is_OperationError); [|done].
    intros a x e' Hx. unfold Rotor.add_step in Hx.
    apply bind_Throw in Hx as [Hx|(? & _ & Hx)]; [by eapply a2i_throws|discriminate].
  - destruct (size st =? length s)%nat; cbn [negb] in H; [|injection H as <-; by eexists].
    apply bind_Throw in H as [H|(? & _ & H)]; [by eapply a2i_throws|discriminate].
Qed.

Lemma add_pair_throws (name : jsstring) (m : gmap Z Z) (tok : jsstring) (e : exn) :
  PairMapBase.add_pair name m tok = Throw e → is_OperationError e.
Proof.
  unfold PairMapBase.add_pair. intros H.
  destruct (match_upper 2 2 tok) eqn:Htok; cbn [negb] in H;
    [|injection H as <-; by eexists].
  apply match_upper_2 in Htok as (x & y & -> & Hx & Hy).
  unfold char_at in H. cbn [lookup list_lookup fmap option_fmap option_map defined
    mbind result_bind] in H.
  rewrite (a2i_upper x), (a2i_upper y) in H by done.
  cbn [mbind result_bind] in H.
  repeat match type of H with
  | context [if ?x then _ else _] => destruct x
  end; try discriminate; injection H as <-; by eexists.
Qed.

Lemma PairMapBase_new_throws (pairs name : jsstring) (e : exn) :
  PairMapBase.new pairs name = Throw e → is_OperationError e.
Proof.
  unfold PairMapBase.new. case_bool_decide as Hemp; [discriminate|]. intros H.
  apply bind_Throw in H as [H|(? & _ & H)]; [|discriminate].
  eapply (foldM_throws is_OperationError); [|done]. apply add_pair_throws.
Qed.

Lemma Reflector_new_throws (pairs : jsstring) (e : exn) :
  Reflector.new pairs = Throw e → is_OperationError e.
Proof.
  unfold Reflector.new. intros H.
  apply bind_Throw in H as [H|(p & _ & H)]; [by eapply PairMapBase_new_throws|].
  destruct (size (PairMapBase.map p) =? 26)%nat; cbn [negb] in H; [discriminate|].
  injection H as <-. by eexists.
Qed.

Lemma EnigmaMachine_new_throws (rs : list Rotor.t) (refl plug : PairMapBase.t)
    (e : exn) :
  EnigmaMachine.new rs refl plug = Throw e → is_OperationError e.
Proof.
  unfold EnigmaMachine.new.
  destruct (negb (length rs =? 3)%nat && negb (length rs =? 4)%nat);
    [|discriminate].
  intros [= <-]. by eexists.
Qed.

Lemma construct_throws (X : Config.t) (e : exn) :
  construct X = Throw e → is_OperationError e.
Proof.
  unfold construct. intros H.
  apply bind_Throw in H as [H|(rs & _ & H)].
  { eapply (traverse_throws is_OperationError); [|done].
    intros c e'. apply Rotor_new_throws. }
  apply bind_Throw in H as [H|(refl & _ & H)]; [by eapply Reflector_new_throws|].
  apply bind_Throw in H as [H|(plug & _ & H)]; [by eapply PairMapBase_new_throws|].
  by eapply EnigmaMachine_new_throws.
Qed.

(** ** Tokens of a pair string *)

Lemma split_ws_from_elem (s cur : jsstring) (in_sep : bool) (tok : jsstring) (u : Z) :
  tok ∈ split_ws_from in_sep cur s → u ∈ tok → u ∈ cur ∨ u ∈ s.
Proof.
  revert cur in_sep. induction s as [|x s IH]; intros cur in_sep Htok Hu.
  - cbn [split_ws_from] in Htok. apply list_elem_of_singleton in Htok as ->.
    left. by apply elem_of_reverse.
  - cbn [split_ws_from] in Htok. destruct (is_white_space x).
    + destruct in_sep.
      * apply IH in Htok; [|done]. destruct Htok as [Hin|Hin]; [|right; by right].
        by apply not_elem_of_nil in Hin.
      * apply elem_of_cons in Htok as [->|Htok]; [left; by apply elem_of_reverse|].
        apply IH in Htok; [|done]. destruct Htok as [Hin|Hin]; [|right; by right].
        by apply not_elem_of_nil in Hin.
    + apply IH in Htok; [|done]. destruct Htok as [Hin|Hin]; [|right; by right].
      apply elem_of_cons in Hin as [->|Hin]; [right; by left|by left].
Qed.

Lemma split_ws_elem (s tok : jsstring) (u : Z) :
  tok ∈ split_ws s → u ∈ tok → u ∈ s.
Proof.
  intros Htok Hu. destruct (split_ws_from_elem _ _ _ _ _ Htok Hu) as [Hin|Hin]; [|done].
  by apply not_elem_of_nil in Hin.
Qed.

Lemma split_ws_leading (u : Z) (s : jsstring) :
  is_white_space u = true → split_ws (u :: s) = [] :: split_ws_from true [] s.
Proof. intros Hu. unfold split_ws. cbn [split_ws_from]. by rewrite Hu. Qed.

Lemma split_ws_from_trailing (s cur : jsstring) (in_sep : bool) (u : Z) :
  is_white_space u = true → [] ∈ split_ws_from in_sep cur (s ++ [u]).
Proof.
  intros Hu. revert cur in_sep. induction s as [|x s IH]; intros cur in_sep.
  - cbn [app split_ws_from]. rewrite Hu.
    destruct in_sep; cbn [split_ws_from]; [by left|right; by left].
  - cbn [app split_ws_from]. destruct (is_white_space x); [destruct in_sep|];
      try apply IH. right. apply IH.
Qed.

Lemma NoDup_join_lookup (ts : list jsstring) (i j : nat) (t1 t2 : jsstring) (u : Z) :
  NoDup (mjoin ts) → ts !! i = Some t1 → ts !! j = Some t2 →
  u ∈ t1 → u ∈ t2 → i = j.
Proof.
  revert i j. induction ts as [|t ts IH]; intros i j Hnd Hi Hj H1 H2; [done|].
  change (mjoin (t :: ts)) with (t ++ mjoin ts) in Hnd.
  apply NoDup_app in Hnd as (_ & Hdisj & Hnd).
  destruct i as [|i], j as [|j]; simpl in Hi, Hj.
  - done.
  - injection Hi as ->. exfalso. apply (Hdisj u H1).
    apply list_elem_of_join. exists t2. split; [done|]. by eapply list_elem_of_lookup_2.
  - injection Hj as ->. exfalso. apply (Hdisj u H2).
    apply list_elem_of_join. exists t1. split; [done|]. by eapply list_elem_of_lookup_2.
  - f_equal. by eapply IH.
Qed.

(** An empty token stops the constructor. *)
Lemma empty_token_throws (pairs name : jsstring) :
  pairs ≠ [] → [] ∈ split_ws pairs →
  ∃ msg, PairMapBase.new pairs name = Throw (OperationError msg).
Proof.
  intros Hne Hin. destruct (PairMapBase.new pairs name) as [p|e] eqn:H.
  - exfalso. apply PairMapBase_new_Ok in H as [[? _]|[_ (_ & Hall & _)]]; [done|].
    rewrite Forall_forall in Hall. by specialize (Hall _ Hin).
  - apply PairMapBase_new_throws in H as [msg ->]. by exists msg.
Qed.

(** ** The operation *)

Lemma parsed_rotor_wf (rotor ring p : jsstring) (i : Z) (r : Rotor.t) :
  Enigma.parsed_rotor rotor i ring p = Ok r → Rotor_wf r.
Proof.
  unfold Enigma.parsed_rotor. intros H. inv_ok H. by eapply Rotor_new_wf.
Qed.

(** With other characters kept, [run] is [crypt] on a valid machine that
    depends on the arguments only. *)
Lemma run_unstripped (a : Enigma.args) (input out : jsstring) :
  Enigma.removeOther a = false → Enigma.run input a = Ok out →
  ∃ m, Machine_wf m ∧
       ∀ input', Enigma.run input' a = EnigmaBase.crypt m input' ≫= λ r, Ok r.2.
Proof.
  unfold Enigma.run. intros Hkeep H. rewrite Hkeep in *.
  apply bind_Ok in H as (r1 & H1 & H). apply bind_Ok in H as (r2 & H2 & H).
  apply bind_Ok in H as (r3 & H3 & H). apply bind_Ok in H as (rs & Hrs & H).
  apply bind_Ok in H as (refl & Hrefl & H). apply bind_Ok in H as (plug & Hplug & H).
  apply bind_Ok in H as (m & Hm & H).
  exists m. split.
  - apply EnigmaMachine_new_Ok in Hm as [-> Hlen].
    pose proof (parsed_rotor_wf _ _ _ _ _ H1) as W1.
    pose proof (parsed_rotor_wf _ _ _ _ _ H2) as W2.
    pose proof (parsed_rotor_wf _ _ _ _ _ H3) as W3.
    split; [|split; [cbn; lia|split]]; cbn.
    + destruct (negb (bool_decide (Enigma.rotor4str a = []))).
      * apply bind_Ok in Hrs as (r4 & H4 & Hrs). injection Hrs as <-.
        apply parsed_rotor_wf in H4.
        repeat (apply Forall_cons; split; [done|]). constructor.
      * injection Hrs as <-.
        repeat (apply Forall_cons; split; [done|]). constructor.
    + by eapply Reflector_new_wf.
    + by eapply PairMapBase_new_wf.
  - intros input'. rewrite H1, H2, H3. cbn [mbind result_bind].
    rewrite Hrs. cbn [mbind result_bind]. rewrite Hrefl, Hplug.
    cbn [mbind result_bind]. by rewrite Hm.
Qed.

(** Round trip through the operation, other characters kept. *)
Lemma run_round_trip (a : Enigma.args) (input c : jsstring) :
  Enigma.removeOther a = false → Enigma.run input a = Ok c →
  Enigma.run c a = Ok (upcase <$> input).
Proof.
  intros Hkeep H.
  destruct (run_unstripped a input c Hkeep H) as (m & Hm & Hrun).
  rewrite Hrun in H. rewrite Hrun.
  destruct (crypt_wf m input Hm) as (m' & c' & Hc & _ & _ & Hb).
  rewrite Hc in H. injection H as <-. by rewrite Hb.
Qed.

(** * The claims *)

(** C1. Round trip: for every valid configuration [X] and every input, the
    machine constructed from [X] encrypts the input, and a machine freshly
    constructed from the same [X] run over the ciphertext gives back the
    input with its ASCII letters in upper case and every other code unit
    unchanged. *)
Theorem crypt_round_trip (X : Config.t) (m : EnigmaBase.t) (input : jsstring) :
  construct X = Ok m →
  ∃ m' c,
    EnigmaBase.crypt m input = Ok (m', c) ∧
    EnigmaBase.crypt m c = Ok (m', upcase <$> input) ∧
    encrypt X input = Ok c ∧
    encrypt X c = Ok (upcase <$> input).
Proof.
  intros HX.
  destruct (crypt_wf m input (construct_wf X m HX)) as (m' & c & Hc & _ & _ & Hb).
  exists m', c. unfold encrypt. rewrite HX. cbn [mbind result_bind].
  by rewrite Hc, Hb.
Qed.

Lemma crypt_round_trip_witness :
  ∃ m, construct (config_AAA "III" "II" "I") = Ok m ∧
  ∃ m' c,
    EnigmaBase.crypt m (js "Hello, World!") = Ok (m', c) ∧
    EnigmaBase.crypt m c = Ok (m', upcase <$> js "Hello, World!") ∧
    encrypt (config_AAA "III" "II" "I") (js "Hello, World!") = Ok c ∧
    encrypt (config_AAA "III" "II" "I") c = Ok (upcase <$> js "Hello, World!").
Proof.
  eexists. split; [vm_compute; reflexivity|].
  apply (crypt_round_trip (config_AAA "III" "II" "I")).
  vm_compute. reflexivity.
Defined.

(** C2. Stepping: [step] on a machine with rotors r0, r1, r2 and possibly
    more always advances r0 by one position; it advances r1 exactly when
    the new position of r0 is a notch of r0 or the position after that of
    r1 is a notch of r1; it advances r2 exactly when r1 advanced onto one
    of its notches; every further rotor, the reflector and the plugboard
    are left as they were. *)
Theorem step_algorithm (r0 r1 r2 : Rotor.t) (rest : list Rotor.t)
    (refl plug : PairMapBase.t) :
  ∃ r0' r1' r2',
    EnigmaBase.step (EnigmaBase.mk (r0 :: r1 :: r2 :: rest) refl plug)
    = Ok (EnigmaBase.mk (r0' :: r1' :: r2' :: rest) refl plug) ∧
    r0' = Rotor.step r0 ∧
    (r1' = Rotor.step r1 ∨ r1' = r1) ∧
    (r1' = Rotor.step r1 ↔
       Rotor.pos r0' ∈ Rotor.steps r0 ∨
       (Rotor.pos r1 + 1) `mod` 26 ∈ Rotor.steps r1) ∧
    (r2' = Rotor.step r2 ∨ r2' = r2) ∧
    (r2' = Rotor.step r2 ↔
       r1' = Rotor.step r1 ∧ Rotor.pos r1' ∈ Rotor.steps r1) ∧
    (∀ r, Rotor.pos (Rotor.step r) = (Rotor.pos r + 1) `mod` 26 ∧
          Rotor.step r ≠ r ∧
          Rotor.map (Rotor.step r) = Rotor.map r ∧
          Rotor.revMap (Rotor.step r) = Rotor.revMap r ∧
          Rotor.steps (Rotor.step r) = Rotor.steps r).
Proof.
  exists (Rotor.step r0), (if advance1 r0 r1 then Rotor.step r1 else r1),
         (if advance2 r0 r1 then Rotor.step r2 else r2).
  split; [apply step_rotors|]. split; [done|].
  pose proof (Rotor_step_neq r1) as Hn1. pose proof (Rotor_step_neq r2) as Hn2.
  assert (advance1 r0 r1 = true ↔
          Rotor.pos (Rotor.step r0) ∈ Rotor.steps r0 ∨
          (Rotor.pos r1 + 1) `mod` 26 ∈ Rotor.steps r1) as A1.
  { unfold advance1, EnigmaBase.has.
    by rewrite orb_true_iff, !bool_decide_eq_true. }
  assert (advance2 r0 r1 = true ↔
          advance1 r0 r1 = true ∧
          Rotor.pos (Rotor.step r1) ∈ Rotor.steps r1) as A2.
  { unfold advance2, EnigmaBase.has.
    by rewrite andb_true_iff, bool_decide_eq_true. }
  split; [destruct (advance1 r0 r1); auto|].
  split.
  { rewrite <- A1. by destruct (advance1 r0 r1). }
  split; [destruct (advance2 r0 r1); auto|].
  split.
  { destruct (advance1 r0 r1) eqn:E1.
    - assert (advance2 r0 r1 = true ↔
              Rotor.pos (Rotor.step r1) ∈ Rotor.steps r1) as A2' by tauto.
      rewrite <- A2'. destruct (advance2 r0 r1); split; try done.
      by intros [_ ?].
    - assert (advance2 r0 r1 = false) as ->.
      { destruct (advance2 r0 r1); [|done]. by destruct (proj1 A2). }
      split; [intros Heq; by symmetry in Heq|intros [Heq _]; by symmetry in Heq]. }
  intros r. split; [done|]. split; [apply Rotor_step_neq|done].
Qed.

(** C3 (as amended). Known test vector: with rotors I, II, III from left to
    right, that is rotor III in the right-hand place (rotor 0) and rotor I
    in the left-hand place (rotor 2), with their catalog notches, reflector
    B, all ring settings and initial positions A and an empty plugboard,
    the input AAAAA gives BDZGO, through the library classes and through
    the operation alike. *)
Theorem known_test_vector :
  encrypt (config_AAA "III" "II" "I") (js "AAAAA") = Ok (js "BDZGO") ∧
  Enigma.run (js "AAAAA") (args_AAA "III" "II" "I") = Ok (js "BDZGO").
Proof. split; vm_compute; reflexivity. Qed.

(** C3 as stated fails: with rotor I in the right-hand place and rotor III
    in the left-hand place the same input gives FTZMG, not BDZGO. *)
Lemma known_test_vector_right_to_left :
  encrypt (config_AAA "I" "II" "III") (js "AAAAA") = Ok (js "FTZMG") ∧
  Enigma.run (js "AAAAA") (args_AAA "I" "II" "III") = Ok (js "FTZMG") ∧
  encrypt (config_AAA "I" "II" "III") (js "AAAAA") ≠ Ok (js "BDZGO").
Proof. split; [|split]; vm_compute; [reflexivity|reflexivity|discriminate]. Qed.

(** C4. Pair substitutions are involutions: a constructed reflector maps
    every letter index to a different one and back again; a constructed
    plugboard maps every letter index to one that it maps back. *)
Theorem pair_involution (rpairs ppairs : jsstring) (r p : PairMapBase.t) (c : Z) :
  Reflector.new rpairs = Ok r → Plugboard.new ppairs = Ok p → 0 ≤ c < 26 →
  (∃ v, PairMapBase.transform r (Some c) = Some v ∧ v ≠ c ∧ 0 ≤ v < 26 ∧
        PairMapBase.transform r (PairMapBase.transform r (Some c)) = Some c) ∧
  (∃ v, PairMapBase.transform p (Some c) = Some v ∧ 0 ≤ v < 26 ∧
        PairMapBase.transform p (PairMapBase.transform p (Some c)) = Some c).
Proof.
  intros Hr Hp Hc. split.
  - destruct (Reflector_transform_invol r c (Reflector_new_wf _ _ Hr) Hc)
      as (v & Hv & Hvr & Hne & Hv').
    exists v. by rewrite Hv.
  - destruct (Pair_transform_invol p c (PairMapBase_new_wf _ _ _ Hp) Hc)
      as (v & Hv & Hvr & Hv').
    exists v. by rewrite Hv.
Qed.

Lemma pair_involution_witness :
  ∃ r p,
    Reflector.new (catalog REFLECTORS "B") = Ok r ∧
    Plugboard.new (js "AB CD") = Ok p ∧
    (∃ v, PairMapBase.transform r (Some 0) = Some v ∧ v ≠ 0 ∧ 0 ≤ v < 26 ∧
          PairMapBase.transform r (PairMapBase.transform r (Some 0)) = Some 0) ∧
    (∃ v, PairMapBase.transform p (Some 0) = Some v ∧ 0 ≤ v < 26 ∧
          PairMapBase.transform p (PairMapBase.transform p (Some 0)) = Some 0).
Proof.
  eexists _, _. split; [vm_compute; reflexivity|]. split; [vm_compute; reflexivity|].
  apply (pair_involution (catalog REFLECTORS "B") (js "AB CD"));
    [vm_compute; reflexivity|vm_compute; reflexivity|lia].
Defined.

(** C5. Rotor transform: for a constructed rotor turned to any position
    [p] and every letter index [c], [transform] gives
    (map[(c + p) mod 26] - p) mod 26, [revTransform] gives the same with
    [revMap], which is the inverse of [map], and [revTransform] undoes
    [transform]. *)
Theorem rotor_transform_formula (w s rs ip : jsstring) (r : Rotor.t) (p c : Z) :
  Rotor.new w s rs ip = Ok r → 0 ≤ c < 26 →
  ∃ b a,
    Rotor.map r !! ((c + p) `mod` 26) = Some b ∧
    Rotor.transform (Rotor.mk (Rotor.map r) (Rotor.revMap r) (Rotor.steps r) p)
      (Some c) = Some ((b - p) `mod` 26) ∧
    Rotor.revMap r !! ((c + p) `mod` 26) = Some a ∧
    Rotor.revTransform (Rotor.mk (Rotor.map r) (Rotor.revMap r) (Rotor.steps r) p)
      (Some c) = Some ((a - p) `mod` 26) ∧
    (∀ x y, Rotor.revMap r !! y = Some x ↔ Rotor.map r !! x = Some y) ∧
    Rotor.revTransform (Rotor.mk (Rotor.map r) (Rotor.revMap r) (Rotor.steps r) p)
      (Rotor.transform (Rotor.mk (Rotor.map r) (Rotor.revMap r) (Rotor.steps r) p)
        (Some c)) = Some c.
Proof.
  intros Hr Hc. apply Rotor_new_wf in Hr as Hwf.
  set (r' := Rotor.mk (Rotor.map r) (Rotor.revMap r) (Rotor.steps r) p).
  assert (Rotor_wf r') as Hwf' by done.
  destruct Hwf as (Hm & Hrm & Hinv).
  destruct (Hm ((c + p) `mod` 26)) as (b & Hb & _);
    [apply Z.mod_pos_bound; lia|].
  destruct (Hrm ((c + p) `mod` 26)) as (a & Ha & _);
    [apply Z.mod_pos_bound; lia|].
  exists b, a. split; [done|]. split.
  { unfold Rotor.transform, Utils.mod_. cbn. by rewrite Hb. }
  split; [done|]. split.
  { unfold Rotor.revTransform, Utils.mod_. cbn. by rewrite Ha. }
  split; [done|].
  destruct (Rotor_transform_rev r' c Hwf' Hc) as (v & Hv & _ & Hv').
  by rewrite Hv.
Qed.

Lemma rotor_transform_formula_witness :
  ∃ r, Rotor.new (js "EKMFLGDQVZNTOWYHXUSPAIBRCJ") (js "R") (js "B") (js "K") = Ok r ∧
  ∃ b a,
    Rotor.map r !! ((3 + 7) `mod` 26) = Some b ∧
    Rotor.transform (Rotor.mk (Rotor.map r) (Rotor.revMap r) (Rotor.steps r) 7)
      (Some 3) = Some ((b - 7) `mod` 26) ∧
    Rotor.revMap r !! ((3 + 7) `mod` 26) = Some a ∧
    Rotor.revTransform (Rotor.mk (Rotor.map r) (Rotor.revMap r) (Rotor.steps r) 7)
      (Some 3) = Some ((a - 7) `mod` 26) ∧
    (∀ x y, Rotor.revMap r !! y = Some x ↔ Rotor.map r !! x = Some y) ∧
    Rotor.revTransform (Rotor.mk (Rotor.map r) (Rotor.revMap r) (Rotor.steps r) 7)
      (Rotor.transform (Rotor.mk (Rotor.map r) (Rotor.revMap r) (Rotor.steps r) 7)
        (Some 3)) = Some 3.
Proof.
  eexists. split; [vm_compute; reflexivity|].
  apply (rotor_transform_formula (js "EKMFLGDQVZNTOWYHXUSPAIBRCJ") (js "R") (js "B") (js "K"));
    [vm_compute; reflexivity|lia].
Defined.

(** C6. Passthrough and frame: in a run of [crypt] that returns, on any
    machine, every code unit of the input that is not an ASCII letter
    stands unchanged at the same place of the output, which is as long as
    the input; the machine is left in the state that one [step] for each
    letter of the input leads to; a turn of the loop on a character that is
    no letter appends it and returns the machine as it was.  For the input
    A1B this gives three characters with 1 in the middle and two steps. *)
Theorem crypt_nonletter_frame (m m' : EnigmaBase.t) (input out : jsstring) :
  EnigmaBase.crypt m input = Ok (m', out) →
  length out = length input ∧
  (∀ i u, input !! i = Some u → is_letter u = false → out !! i = Some u) ∧
  stepn (length (filter (λ u, is_letter u = true) input)) m = Ok m' ∧
  (∀ (st : EnigmaBase.t * jsstring) (l : jsstring),
     a2i l true = Ok (-1) → EnigmaBase.crypt_char st l = Ok (st.1, st.2 ++ l)) ∧
  (input = js "A1B" → ∃ x y, out = [x; 49; y] ∧ stepn 2 m = Ok m').
Proof.
  intros H. apply crypt_inv in H as [Henc Hst].
  pose proof (enc_unit_length _ _ _ Henc) as Hlen.
  assert (∀ i u, input !! i = Some u → is_letter u = false → out !! i = Some u)
    as Hcopy.
  { intros i u Hi Hu.
    destruct (Forall2_lookup_l _ _ _ _ _ Henc Hi) as (v & Hv & Huv).
    unfold enc_unit in Huv. rewrite Hu in Huv. by subst v. }
  split; [done|]. split; [done|]. split; [done|]. split.
  { intros [m0 acc] l Hl. by apply crypt_char_other. }
  intros ->. specialize (Hcopy 1%nat 49 eq_refl eq_refl).
  destruct out as [|x [|o [|y [|z out]]]]; try discriminate Hlen.
  injection Hcopy as ->. by exists x, y.
Qed.

Lemma crypt_nonletter_frame_witness :
  ∃ m m' out,
    construct (config_AAA "III" "II" "I") = Ok m ∧
    EnigmaBase.crypt m (js "A1B") = Ok (m', out) ∧
    Enigma.run (js "A1B") (args_AAA "III" "II" "I") = Ok out ∧
    length out = length (js "A1B") ∧
    (∀ i u, js "A1B" !! i = Some u → is_letter u = false → out !! i = Some u) ∧
    stepn (length (filter (λ u, is_letter u = true) (js "A1B"))) m = Ok m' ∧
    (∀ (st : EnigmaBase.t * jsstring) (l : jsstring),
       a2i l true = Ok (-1) → EnigmaBase.crypt_char st l = Ok (st.1, st.2 ++ l)) ∧
    (js "A1B" = js "A1B" → ∃ x y, out = [x; 49; y] ∧ stepn 2 m = Ok m').
Proof.
  eexists _, _, _. split; [vm_compute; reflexivity|].
  split; [vm_compute; reflexivity|]. split; [vm_compute; reflexivity|].
  apply crypt_nonletter_frame. vm_compute. reflexivity.
Defined.

(** C7. Construction failures: a configuration in which a rotor wiring
    repeats a letter, a letter stands in two pairs of the plugboard, the
    reflector leaves a letter out, or the rotors are not 3 or 4 in number,
    makes construction throw an [OperationError], so that nothing is
    encrypted; and the constructor concerned throws on its own account. *)
Theorem construction_failures (X : Config.t) :
  invalid X →
  (∃ msg, construct X = Throw (OperationError msg) ∧
          ∀ input, encrypt X input = Throw (OperationError msg)) ∧
  (∀ c, c ∈ Config.rotors X → repeated_wiring c →
     ∃ msg, Rotor.new (Config.wiring c) (Config.steps c) (Config.ringSetting c)
              (Config.initialPosition c) = Throw (OperationError msg)) ∧
  (letter_in_two_pairs (Config.plugboard X) →
     ∃ msg, Plugboard.new (Config.plugboard X) = Throw (OperationError msg)) ∧
  (letter_not_covered (Config.reflector X) →
     ∃ msg, Reflector.new (Config.reflector X) = Throw (OperationError msg)) ∧
  (∀ rs refl plug, length rs ≠ 3%nat → length rs ≠ 4%nat →
     ∃ msg, EnigmaMachine.new rs refl plug = Throw (OperationError msg)).
Proof.
  assert (∀ c, repeated_wiring c →
     ∃ msg, Rotor.new (Config.wiring c) (Config.steps c) (Config.ringSetting c)
              (Config.initialPosition c) = Throw (OperationError msg)) as Hrotor.
  { intros c Hc.
    destruct (Rotor.new _ _ _ _) as [r|e] eqn:H.
    - by apply Rotor_new_Ok in H as (_ & Hnd & _).
    - apply Rotor_new_throws in H as [msg ->]. by exists msg. }
  assert (∀ pairs, letter_in_two_pairs pairs →
     ∃ msg, Plugboard.new pairs = Throw (OperationError msg)) as Hplug.
  { intros pairs (i & j & t1 & t2 & u & Hi & Hj & Hij & H1 & H2).
    destruct (Plugboard.new pairs) as [p|e] eqn:H.
    - exfalso. apply PairMapBase_new_Ok in H as [[-> _]|[_ (_ & _ & Hnd)]].
      + apply Hij. destruct i as [|[|i]], j as [|[|j]]; done.
      + apply Hij. by eapply NoDup_join_lookup.
    - apply PairMapBase_new_throws in H as [msg ->]. by exists msg. }
  assert (∀ pairs, letter_not_covered pairs →
     ∃ msg, Reflector.new pairs = Throw (OperationError msg)) as Hrefl.
  { intros pairs (c & Hc & Hnin).
    destruct (Reflector.new pairs) as [p|e] eqn:H.
    - exfalso. apply Reflector_new_wf in H as Hwf. destruct Hwf as [_ Htot].
      destruct (Htot c Hc) as [b Hb].
      apply Reflector_new_Ok in H as [H _].
      apply PairMapBase_new_Ok in H as [[_ Hm]|[_ (Hlk & _ & _)]].
      + by rewrite Hm, lookup_empty in Hb.
      + apply Hlk in Hb as (tok & Hin & Htok). apply Hnin.
        apply (split_ws_elem pairs tok); [done|].
        destruct Htok as [->| ->]; [by left|right; by left].
    - apply Reflector_new_throws in H as [msg ->]. by exists msg. }
  assert (∀ rs refl plug, length rs ≠ 3%nat → length rs ≠ 4%nat →
     ∃ msg, EnigmaMachine.new rs refl plug = Throw (OperationError msg)) as Hcount.
  { intros rs refl plug H3 H4. unfold EnigmaMachine.new.
    apply Nat.eqb_neq in H3, H4. rewrite H3, H4. by eexists. }
  intros Hinv. split; [|split; [auto|split; [auto|split; [auto|done]]]].
  destruct (construct X) as [m|e] eqn:H.
  - exfalso.
    apply construct_Ok in H as (rs & refl & plug & -> & Hrs & Hr & Hp & Hlen).
    destruct Hinv as [(c & Hc & Hrep)|[Htwo|[Hnot|[H3 H4]]]].
    + apply list_elem_of_lookup in Hc as [i Hi].
      destruct (Forall2_lookup_l _ _ _ _ _ Hrs Hi) as (r & _ & Hnew).
      destruct (Hrotor c Hrep) as [msg Hmsg]. congruence.
    + destruct (Hplug _ Htwo) as [msg Hmsg]. congruence.
    + destruct (Hrefl _ Hnot) as [msg Hmsg]. congruence.
    + apply Forall2_length in Hrs. lia.
  - apply construct_throws in H as Hop. destruct Hop as [msg ->].
    exists msg. split; [done|]. intros input. unfold encrypt. by rewrite H.
Qed.

Lemma construction_failures_witness :
  (∃ msg, construct (Config.mk
            [Config.mkRotor (js "AACDEFGHIJKLMNOPQRSTUVWXYZ") (js "") (js "A") (js "A");
             rotor_AAA "II"] (js "AB") (js "AB CA"))
          = Throw (OperationError msg) ∧
          ∀ input, encrypt (Config.mk
            [Config.mkRotor (js "AACDEFGHIJKLMNOPQRSTUVWXYZ") (js "") (js "A") (js "A");
             rotor_AAA "II"] (js "AB") (js "AB CA"))
                     input = Throw (OperationError msg)) ∧
  (∃ msg, Rotor.new (js "AACDEFGHIJKLMNOPQRSTUVWXYZ") (js "") (js "A") (js "A")
          = Throw (OperationError msg)) ∧
  (∃ msg, Plugboard.new (js "AB CA") = Throw (OperationError msg)) ∧
  (∃ msg, Reflector.new (js "AB") = Throw (OperationError msg)).
Proof.
  assert (invalid (Config.mk
            [Config.mkRotor (js "AACDEFGHIJKLMNOPQRSTUVWXYZ") (js "") (js "A") (js "A");
             rotor_AAA "II"] (js "AB") (js "AB CA")))
    as Hinv.
  { right. right. right. cbn. lia. }
  destruct (construction_failures _ Hinv) as (H1 & H0 & H2 & H3 & _).
  split; [exact H1|]. split; [|split].
  - apply (H0 (Config.mkRotor (js "AACDEFGHIJKLMNOPQRSTUVWXYZ") (js "") (js "A") (js "A"))).
    + left.
    + unfold repeated_wiring. cbn. intros Hnd.
      apply NoDup_cons in Hnd as [Hnin _]. apply Hnin. left.
  - apply H2. exists 0%nat, 1%nat, (js "AB"), (js "CA"), 65.
    vm_compute. repeat split; try done; try lia.
    + left.
    + right. left.
  - apply H3. exists 2. split; [lia|]. vm_compute.
    intros H. repeat (apply elem_of_cons in H as [H|H]; [discriminate H|]).
    by apply not_elem_of_nil in H.
Defined.

(** C8. No runtime errors: on a constructed machine [crypt] returns for
    every input, with an output as long as the input; and in whatever state
    the machine has been left by an earlier run, the index that a letter
    hands to [i2a] at the end of the signal path lies in 0..25. *)
Theorem crypt_never_throws (X : Config.t) (m : EnigmaBase.t) (input : jsstring) :
  construct X = Ok m →
  ∃ m' out,
    EnigmaBase.crypt m input = Ok (m', out) ∧
    length out = length input ∧
    ∀ (pre out1 l : jsstring) (m1 : EnigmaBase.t) (c : Z),
      EnigmaBase.crypt m pre = Ok (m1, out1) →
      a2i l true = Ok c → c ≠ -1 →
      ∃ m2 v, EnigmaBase.step m1 = Ok m2 ∧
              EnigmaBase.signal m2 (Some c) = Some v ∧ 0 ≤ v < 26 ∧
              i2a (Some v) = Ok [v + 65].
Proof.
  intros HX. pose proof (construct_wf X m HX) as Hm.
  destruct (crypt_wf m input Hm) as (m' & out & Hc & _ & Henc & _).
  exists m', out. split; [done|]. split; [by eapply enc_unit_length|].
  intros pre out1 l m1 c Hpre Hl Hne.
  destruct (crypt_wf m pre Hm) as (m1' & out1' & Hpre' & Hm1 & _).
  rewrite Hpre in Hpre'. injection Hpre' as <- <-.
  destruct (step_wf m1 Hm1) as (m2 & Hm2 & Hwf2).
  destruct (a2i_range _ _ Hl) as [?|Hcr]; [done|].
  destruct (signal_invol m2 c Hwf2 Hcr) as (v & Hv & Hvr & _).
  exists m2, v. repeat split; try done; try lia. by apply i2a_Ok.
Qed.

Lemma crypt_never_throws_witness :
  ∃ m, construct (config_AAA "III" "II" "I") = Ok m ∧
  ∃ m' out,
    EnigmaBase.crypt m (js "Attack at dawn!") = Ok (m', out) ∧
    length out = length (js "Attack at dawn!") ∧
    ∀ (pre out1 l : jsstring) (m1 : EnigmaBase.t) (c : Z),
      EnigmaBase.crypt m pre = Ok (m1, out1) →
      a2i l true = Ok c → c ≠ -1 →
      ∃ m2 v, EnigmaBase.step m1 = Ok m2 ∧
              EnigmaBase.signal m2 (Some c) = Some v ∧ 0 ≤ v < 26 ∧
              i2a (Some v) = Ok [v + 65].
Proof.
  eexists. split; [vm_compute; reflexivity|].
  apply (crypt_never_throws (config_AAA "III" "II" "I")).
  vm_compute. reflexivity.
Defined.

(** C9. No self-encryption: in a run of a constructed machine, whatever
    came before, the letter put out for an ASCII letter of the input is an
    upper-case letter other than the upper-case form of that letter. *)
Theorem no_self_encryption (X : Config.t) (m m' : EnigmaBase.t)
    (input out : jsstring) (i : nat) (u : Z) :
  construct X = Ok m →
  EnigmaBase.crypt m input = Ok (m', out) →
  input !! i = Some u → is_letter u = true →
  ∃ v, out !! i = Some v ∧ 65 ≤ v ≤ 90 ∧ v ≠ upcase u.
Proof.
  intros HX Hc Hi Hu.
  destruct (crypt_wf m input (construct_wf X m HX)) as (m1 & out1 & Hc1 & _ & Henc & _).
  rewrite Hc in Hc1. injection Hc1 as <- <-.
  destruct (Forall2_lookup_l _ _ _ _ _ Henc Hi) as (v & Hv & Huv).
  unfold enc_unit in Huv. rewrite Hu in Huv. destruct Huv as [Hvr Hne].
  by exists v.
Qed.

Lemma no_self_encryption_witness :
  ∃ m m' out,
    construct (config_AAA "III" "II" "I") = Ok m ∧
    EnigmaBase.crypt m (js "x-ray") = Ok (m', out) ∧
    ∃ v, out !! 2%nat = Some v ∧ 65 ≤ v ≤ 90 ∧ v ≠ upcase 114.
Proof.
  eexists _, _, _. split; [vm_compute; reflexivity|].
  split; [vm_compute; reflexivity|].
  eapply (no_self_encryption (config_AAA "III" "II" "I")) with (input := js "x-ray");
    vm_compute; reflexivity.
Defined.

(** C10 (as amended). White space in a pair string: the empty string
    gives a plugboard without pairs, and gives [PairMapBase] no pairs
    under any name; a string that begins or ends with white space has an
    empty token, which is no pair of upper-case letters, and neither a
    plugboard nor a reflector can be constructed from it; when the white
    space comes first, the error is the one about the list of pairs. *)
Theorem pair_string_white_space (pairs : jsstring) (u : Z) :
  head pairs = Some u ∨ last pairs = Some u → is_white_space u = true →
  Plugboard.new (js "") = Ok (PairMapBase.mk ∅) ∧
  (∀ name, PairMapBase.new (js "") name = Ok (PairMapBase.mk ∅)) ∧
  [] ∈ split_ws pairs ∧ match_upper 2 2 [] = false ∧
  (∃ msg, Plugboard.new pairs = Throw (OperationError msg)) ∧
  (∃ msg, Reflector.new pairs = Throw (OperationError msg)) ∧
  (head pairs = Some u →
   Plugboard.new pairs = Throw (OperationError
     (js "Plugboard must be a whitespace-separated list of uppercase letter pairs"))).
Proof.
  intros Hends Hu. split; [done|]. split; [done|].
  assert (pairs ≠ []) as Hne by (intros ->; by destruct Hends).
  assert ([] ∈ split_ws pairs) as Hin.
  { destruct Hends as [Hh|Hl].
    - destruct pairs as [|x s]; [done|]. injection Hh as ->.
      rewrite split_ws_leading by done. left.
    - apply last_Some in Hl as [s ->]. by apply split_ws_from_trailing. }
  split; [done|]. split; [done|].
  destruct (empty_token_throws pairs (js "Plugboard") Hne Hin) as [msg Hp].
  destruct (empty_token_throws pairs (js "Reflector") Hne Hin) as [msg' Hr].
  split; [by exists msg|]. split.
  { exists msg'. unfold Reflector.new. by rewrite Hr. }
  intros Hh. destruct pairs as [|x s]; [done|]. injection Hh as ->.
  unfold Plugboard.new, PairMapBase.new. rewrite bool_decide_eq_false_2 by done.
  by rewrite split_ws_leading.
Qed.

Lemma pair_string_white_space_witness :
  Plugboard.new (js "") = Ok (PairMapBase.mk ∅) ∧
  (∀ name, PairMapBase.new (js "") name = Ok (PairMapBase.mk ∅)) ∧
  [] ∈ split_ws (js " AB") ∧ match_upper 2 2 [] = false ∧
  (∃ msg, Plugboard.new (js " AB") = Throw (OperationError msg)) ∧
  (∃ msg, Reflector.new (js " AB") = Throw (OperationError msg)) ∧
  (head (js " AB") = Some 32 →
   Plugboard.new (js " AB") = Throw (OperationError
     (js "Plugboard must be a whitespace-separated list of uppercase letter pairs"))).
Proof.
  apply (pair_string_white_space (js " AB") 32); [left|]; reflexivity.
Defined.

(** C10 as stated fails for the reflector: from the empty string its
    constructor gets no pairs and throws, as not every letter is covered. *)
Lemma Reflector_empty_string_throws :
  Reflector.new (js "")
  = Throw (OperationError (js "Reflector must have exactly 13 pairs covering every letter"))
  ∧ ¬ ∃ r, Reflector.new (js "") = Ok r.
Proof. split; [reflexivity|]. intros [r H]. discriminate H. Qed.

(** * Further properties *)

(** ** The letter codec *)

(** X1. [i2a] and [a2i] are inverse to each other on 0..25 and A..Z. *)
Theorem letter_codec_round_trip (i : Z) :
  0 ≤ i < 26 →
  i2a (Some i) = Ok [i + 65] ∧
  a2i [i + 65] false = Ok i ∧ a2i [i + 65] true = Ok i ∧
  a2i [i + 97] true = Ok i ∧
  (a2i [i + 65] false ≫= λ n, i2a (Some n)) = Ok [i + 65].
Proof.
  intros Hi. rewrite i2a_Ok by done. rewrite !(a2i_upper (i + 65)) by lia.
  replace (i + 65 - 65) with i by lia. cbn [mbind result_bind].
  rewrite i2a_Ok by done. repeat split; try done.
  rewrite a2i_letter by (unfold is_letter; lia). unfold upcase.
  replace ((97 <=? i + 97) && (i + 97 <=? 122)) with true by lia.
  f_equal. lia.
Qed.

Lemma letter_codec_round_trip_witness :
  i2a (Some 7) = Ok [7 + 65] ∧
  a2i [7 + 65] false = Ok 7 ∧ a2i [7 + 65] true = Ok 7 ∧
  a2i [7 + 97] true = Ok 7 ∧
  (a2i [7 + 65] false ≫= λ n, i2a (Some n)) = Ok [7 + 65].
Proof. apply (letter_codec_round_trip 7). lia. Defined.

(** X2. The two modes of [a2i]: the permissive one never throws and
    gives -1 or an index in 0..25; the strict one gives the same index for
    a character whose code is in A..Z and throws for every other; [i2a]
    throws outside 0..25, also for [NaN]. *)
Theorem a2i_modes (c : jsstring) :
  (∃ n, a2i c true = Ok n ∧ (n = -1 ∨ 0 ≤ n < 26)) ∧
  (∀ n, a2i c false = Ok n ↔
        a2i c true = Ok n ∧ ∃ i, Utils.ord c = Some i ∧ 65 ≤ i ≤ 90) ∧
  ((¬ ∃ i, Utils.ord c = Some i ∧ 65 ≤ i ≤ 90) →
   a2i c false
   = Throw (OperationError (js "a2i called on non-uppercase ASCII character"))) ∧
  (∀ x, (∃ n, i2a x = Ok n) ↔ ∃ i, x = Some i ∧ 0 ≤ i < 26).
Proof.
  split; [|split; [|split]].
  - unfold a2i. destruct (Utils.ord c) as [i|]; [|exists (-1); auto].
    destruct ((65 <=? i) && (i <=? 90)) eqn:E1; [exists (i - 65); split; [done|lia]|].
    destruct ((97 <=? i) && (i <=? 122)) eqn:E2; [exists (i - 97); split; [done|lia]|].
    exists (-1). auto.
  - intros n. unfold a2i. destruct (Utils.ord c) as [i|].
    + destruct ((65 <=? i) && (i <=? 90)) eqn:E1.
      * split; [intros H; split; [done|exists i; split; [done|lia]]|by intros [? _]].
      * split; [done|]. intros [_ (j & [= <-] & Hj)]. lia.
    + split; [done|]. by intros [_ (j & ? & _)].
  - intros Hno. unfold a2i. destruct (Utils.ord c) as [i|]; [|done].
    destruct ((65 <=? i) && (i <=? 90)) eqn:E1; [|done].
    exfalso. apply Hno. exists i. split; [done|lia].
  - intros x. split.
    + intros [n Hn]. apply i2a_inv in Hn as (v & -> & Hv & _). by exists v.
    + intros (i & -> & Hi). rewrite i2a_Ok by done. by eexists.
Qed.

Lemma a2i_modes_witness :
  a2i [] false
  = Throw (OperationError (js "a2i called on non-uppercase ASCII character")).
Proof.
  apply (proj1 (proj2 (proj2 (a2i_modes [])))).
  intros (i & H & _). discriminate H.
Defined.

(** ** The rotor *)

Lemma string_iter_upper (s : jsstring) :
  Forall (λ u, 65 ≤ u ≤ 90) s → string_iter s = (λ u, [u]) <$> s.
Proof.
  induction 1 as [|u s Hu Hs IH]; [done|].
  destruct s as [|v s]; [done|].
  rewrite string_iter_single, IH; [done|].
  unfold is_high_surrogate. lia.
Qed.

Lemma add_step_upper (rs u : Z) (st : gset Z) :
  65 ≤ u ≤ 90 →
  Rotor.add_step rs st [u] = Ok ({[ Utils.mod_ (u - 65 - rs) 26 ]} ∪ st).
Proof. intros Hu. unfold Rotor.add_step. by rewrite (a2i_upper u). Qed.

Lemma add_step_fold (rs : Z) (s : jsstring) (st : gset Z) :
  Forall (λ u, 65 ≤ u ≤ 90) s →
  foldM (Rotor.add_step rs) st ((λ u, [u]) <$> s)
  = Ok (list_to_set ((λ u, Utils.mod_ (u - 65 - rs) 26) <$> s) ∪ st).
Proof.
  intros Hs. revert st. induction Hs as [|u s Hu Hs IH]; intros st.
  - cbn. by rewrite (left_id_L ∅ (∪)).
  - rewrite !fmap_cons. cbn [foldM]. rewrite add_step_upper by done.
    cbn [mbind result_bind]. rewrite IH, list_to_set_cons. f_equal.
    rewrite (assoc_L (∪)). f_equal. apply (comm_L (∪)).
Qed.

(** Shifting by the ring setting keeps distinct notch letters distinct. *)
Lemma NoDup_shift (rs : Z) (s : jsstring) :
  Forall (λ u, 65 ≤ u ≤ 90) s →
  NoDup ((λ u, Utils.mod_ (u - 65 - rs) 26) <$> s) ↔ NoDup s.
Proof.
  intros Hs. split; [apply NoDup_fmap_1|].
  apply NoDup_fmap_2_strong. intros x y Hx Hy Heq.
  rewrite Forall_forall in Hs. pose proof (Hs x Hx). pose proof (Hs y Hy).
  unfold Utils.mod_ in Heq.
  pose proof (Z.mod_pos_bound (x - 65 - rs) 26 ltac:(lia)).
  pose proof (Z.div_mod (x - 65 - rs) 26 ltac:(lia)).
  pose proof (Z.div_mod (y - 65 - rs) 26 ltac:(lia)). lia.
Qed.

Lemma size_list_to_set_iff (l : list Z) :
  size (list_to_set l : gset Z) = length l ↔ NoDup l.
Proof. split; [apply size_list_to_set_NoDup|apply size_list_to_set]. Qed.

Lemma match_upper_1 (s : jsstring) :
  match_upper 1 1 s = true ↔ ∃ u, s = [u] ∧ 65 ≤ u ≤ 90.
Proof.
  rewrite match_upper_spec. split.
  - intros [Hlen Hall]. destruct s as [|u [|v s]]; simpl in Hlen; try lia.
    exists u. split; [done|]. by apply Forall_cons in Hall as [? _].
  - intros (u & -> & Hu). split; [simpl; lia|].
    apply Forall_cons; split; [done|constructor].
Qed.

(** The constructor after its four format checks. *)
Lemma Rotor_new_checked (w s : jsstring) (ring p : Z) :
  match_upper 26 26 w = true → match_upper 0 26 s = true →
  65 ≤ ring ≤ 90 → 65 ≤ p ≤ 90 →
  ∃ M RM, wired w 26 M RM ∧
    Rotor.new w s [ring] [p]
    = if negb (size RM =? 26)%nat then
        Throw (OperationError (js "Rotor wiring must have each letter exactly once"))
      else if negb (size (list_to_set
                 ((λ u, Utils.mod_ (u - 65 - (ring - 65)) 26) <$> s) : gset Z)
                    =? length s)%nat then
        Throw (OperationError (js "Rotor steps must be unique"))
      else Ok (Rotor.mk M RM
                 (list_to_set ((λ u, Utils.mod_ (u - 65 - (ring - 65)) 26) <$> s))
                 (Utils.mod_ (p - 65 - (ring - 65)) 26)).
Proof.
  intros Hw Hs Hring Hp.
  destruct (wire_fold w Hw 26) as (M & RM & Hf & Hwired); [lia|].
  exists M, RM. split; [done|].
  assert (match_upper 1 1 [ring] = true) as Hr1
    by (apply match_upper_1; by exists ring).
  assert (match_upper 1 1 [p] = true) as Hp1 by (apply match_upper_1; by exists p).
  unfold Rotor.new. rewrite Hw, Hs, Hr1, Hp1. cbn [negb].
  rewrite LETTERS_length, Hf. cbn [mbind result_bind fst snd].
  destruct (negb (size RM =? 26)%nat); [done|].
  rewrite (a2i_upper ring), (a2i_upper p) by done. cbn [mbind result_bind].
  apply match_upper_spec in Hs as [_ Hs].
  rewrite string_iter_upper, add_step_fold by done. cbn [mbind result_bind].
  by rewrite (right_id_L ∅ (∪)).
Qed.

Lemma Rotor_new_sound (w s rs ip : jsstring) (r : Rotor.t) :
  Rotor.new w s rs ip = Ok r →
  match_upper 26 26 w = true ∧ NoDup w ∧
  match_upper 0 26 s = true ∧ NoDup s ∧
  match_upper 1 1 rs = true ∧ match_upper 1 1 ip = true.
Proof.
  intros H. pose proof (Rotor_new_Ok _ _ _ _ _ H) as (Hw & Hnd & _).
  assert (match_upper 0 26 s = true ∧ match_upper 1 1 rs = true ∧
          match_upper 1 1 ip = true) as (Hs & Hrs & Hip).
  { unfold Rotor.new in H. rewrite Hw in H. cbn [negb] in H.
    destruct (match_upper 0 26 s); [|discriminate]. cbn [negb] in H.
    destruct (match_upper 1 1 rs); [|discriminate]. cbn [negb] in H.
    by destruct (match_upper 1 1 ip). }
  repeat split; try done.
  apply match_upper_1 in Hrs as (ring & -> & Hring).
  apply match_upper_1 in Hip as (p & -> & Hp).
  destruct (Rotor_new_checked w s ring p Hw Hs Hring Hp) as (M & RM & _ & Hnew).
  rewrite Hnew in H.
  destruct (negb (size RM =? 26)%nat); [discriminate|].
  destruct (size _ =? length s)%nat eqn:Hsz; [|discriminate].
  apply Nat.eqb_eq in Hsz. rewrite <- (length_fmap (λ u, Utils.mod_ (u - 65 - (ring - 65)) 26)) in Hsz.
  apply size_list_to_set_NoDup in Hsz.
  apply match_upper_spec in Hs as [_ Hs]. by apply NoDup_shift in Hsz.
Qed.

Lemma Rotor_new_complete (w s rs ip : jsstring) :
  match_upper 26 26 w = true → NoDup w →
  match_upper 0 26 s = true → NoDup s →
  match_upper 1 1 rs = true → match_upper 1 1 ip = true →
  ∃ r, Rotor.new w s rs ip = Ok r.
Proof.
  intros Hw Hnd Hs Hnds Hrs Hip.
  apply match_upper_1 in Hrs as (ring & -> & Hring).
  apply match_upper_1 in Hip as (p & -> & Hp).
  destruct (Rotor_new_checked w s ring p Hw Hs Hring Hp)
    as (M & RM & (_ & _ & Hdom) & Hnew).
  rewrite Hnew.
  assert (size RM = 26%nat) as ->.
  { rewrite <- size_dom, Hdom.
    rewrite firstn_all2 by (rewrite (wiring_length w Hw); lia).
    rewrite size_list_to_set, length_fmap; [apply (wiring_length w Hw)|].
    apply NoDup_fmap_2; [|done]. intros x y. lia. }
  cbn [Nat.eqb negb].
  apply match_upper_spec in Hs as [_ Hs].
  rewrite size_list_to_set, length_fmap by (by apply NoDup_shift).
  rewrite Nat.eqb_refl. cbn [negb]. by eexists.
Qed.

(** X3. The rotor constructor accepts exactly: a wiring of 26 distinct
    upper-case letters, at most 26 distinct upper-case notch letters, and
    one upper-case letter each for ring setting and initial position. *)
Theorem Rotor_new_accepts (w s rs ip : jsstring) :
  (∃ r, Rotor.new w s rs ip = Ok r) ↔
  match_upper 26 26 w = true ∧ NoDup w ∧
  match_upper 0 26 s = true ∧ NoDup s ∧
  match_upper 1 1 rs = true ∧ match_upper 1 1 ip = true.
Proof.
  split.
  - intros [r H]. by eapply Rotor_new_sound.
  - intros (Hw & Hnd & Hs & Hnds & Hrs & Hip). by apply Rotor_new_complete.
Qed.

(** X4. What the constructor stores: the position is the initial position
    less the ring setting, the notch set holds the notch letters shifted
    by the ring setting in the same way, and [map] is the wiring.  So the
    rotor stands on a notch, after any number of steps, exactly when the
    letter it shows (the initial position advanced by that number) is a
    notch letter, whatever the ring setting. *)
Theorem Rotor_new_fields (w s : jsstring) (ring p : Z) (r : Rotor.t) :
  Rotor.new w s [ring] [p] = Ok r →
  Rotor.pos r = (p - ring) `mod` 26 ∧
  (∀ n, n ∈ Rotor.steps r ↔ ∃ x, x ∈ s ∧ n = (x - ring) `mod` 26) ∧
  (∀ a b, Rotor.map r !! a = Some b ↔ 0 ≤ a ∧ w !! Z.to_nat a = Some (b + 65)) ∧
  (∀ k : nat,
     Rotor.pos (Nat.iter k Rotor.step r) ∈ Rotor.steps r ↔
     ∃ x, x ∈ s ∧ x - 65 = (p - 65 + Z.of_nat k) `mod` 26).
Proof.
  intros H. pose proof (Rotor_new_Ok _ _ _ _ _ H) as (_ & _ & Hmap & _ & _).
  destruct (Rotor_new_sound _ _ _ _ _ H) as (Hw & _ & Hs & _ & Hr & Hp).
  apply match_upper_1 in Hr as (? & [= <-] & Hring).
  apply match_upper_1 in Hp as (? & [= <-] & Hp).
  destruct (Rotor_new_checked w s ring p Hw Hs Hring Hp) as (M & RM & _ & Hnew).
  rewrite Hnew in H.
  destruct (negb (size RM =? 26)%nat); [discriminate|].
  destruct (negb _); [discriminate|]. injection H as <-.
  cbn [Rotor.pos Rotor.steps Rotor.map] in *.
  apply match_upper_spec in Hs as [_ Hs]. rewrite Forall_forall in Hs.
  assert (∀ n, n ∈ (list_to_set ((λ u, Utils.mod_ (u - 65 - (ring - 65)) 26) <$> s)
                    : gset Z) ↔ ∃ x, x ∈ s ∧ n = (x - ring) `mod` 26) as Hsteps.
  { intros n. rewrite elem_of_list_to_set, list_elem_of_fmap. unfold Utils.mod_.
    split; intros (x & Hx1 & Hx2); exists x.
    - split; [done|]. rewrite Hx1. f_equal. lia.
    - split; [|done]. rewrite Hx2. f_equal. lia. }
  split; [unfold Utils.mod_; f_equal; lia|]. split; [done|]. split; [done|].
  intros k.
  assert (Rotor.pos (Nat.iter k Rotor.step
            (Rotor.mk M RM
               (list_to_set ((λ u, Utils.mod_ (u - 65 - (ring - 65)) 26) <$> s))
               (Utils.mod_ (p - 65 - (ring - 65)) 26)))
          = (p - ring + Z.of_nat k) `mod` 26) as ->.
  { induction k as [|k IH].
    - cbn. unfold Utils.mod_. f_equal; lia.
    - rewrite Nat.iter_succ. unfold Rotor.step at 1. cbn [Rotor.pos].
      rewrite IH. unfold Utils.mod_. rewrite Zplus_mod_idemp_l. f_equal. lia. }
  rewrite Hsteps. split; intros (x & Hx & Heq); exists x; (split; [done|]);
    pose proof (Hs x Hx);
    pose proof (Z.mod_pos_bound (p - 65 + Z.of_nat k) 26 ltac:(lia));
    pose proof (Z.div_mod (p - 65 + Z.of_nat k) 26 ltac:(lia));
    pose proof (Z.div_mod (p - ring + Z.of_nat k) 26 ltac:(lia));
    pose proof (Z.mod_pos_bound (p - ring + Z.of_nat k) 26 ltac:(lia));
    pose proof (Z.div_mod (x - ring) 26 ltac:(lia));
    pose proof (Z.mod_pos_bound (x - ring) 26 ltac:(lia)); lia.
Qed.

Lemma Rotor_new_fields_witness :
  ∃ r, Rotor.new (js "EKMFLGDQVZNTOWYHXUSPAIBRCJ") (js "R") [66] [75] = Ok r ∧
  Rotor.pos r = (75 - 66) `mod` 26 ∧
  (∀ n, n ∈ Rotor.steps r ↔ ∃ x, x ∈ js "R" ∧ n = (x - 66) `mod` 26) ∧
  (∀ a b, Rotor.map r !! a = Some b ↔
     0 ≤ a ∧ js "EKMFLGDQVZNTOWYHXUSPAIBRCJ" !! Z.to_nat a = Some (b + 65)) ∧
  (∀ k : nat,
     Rotor.pos (Nat.iter k Rotor.step r) ∈ Rotor.steps r ↔
     ∃ x, x ∈ js "R" ∧ x - 65 = (75 - 65 + Z.of_nat k) `mod` 26).
Proof.
  eexists. split; [vm_compute; reflexivity|].
  apply (Rotor_new_fields (js "EKMFLGDQVZNTOWYHXUSPAIBRCJ") (js "R") 66 75).
  vm_compute. reflexivity.
Defined.

Lemma Rotor_iter_step (k : nat) (r : Rotor.t) :
  Nat.iter k Rotor.step r
  = Rotor.mk (Rotor.map r) (Rotor.revMap r) (Rotor.steps r)
      (Rotor.pos (Nat.iter k Rotor.step r)) ∧
  (0 ≤ Rotor.pos r < 26 →
   Rotor.pos (Nat.iter k Rotor.step r) = (Rotor.pos r + Z.of_nat k) `mod` 26).
Proof.
  induction k as [|k [IH1 IH2]].
  - split; [by destruct r|]. intros Hp. cbn. rewrite Z.add_0_r.
    by rewrite Z.mod_small.
  - rewrite Nat.iter_succ. split.
    + unfold Rotor.step at 1 3. cbn [Rotor.pos]. rewrite IH1 at 1 2 3. done.
    + intros Hp. unfold Rotor.step at 1. cbn [Rotor.pos]. rewrite IH2 by done.
      unfold Utils.mod_. rewrite Zplus_mod_idemp_l. f_equal. lia.
Qed.

(** X5. Rotor cadence: a rotor whose position is in range (as every
    constructed rotor's is) stands after k steps at its position plus k
    modulo 26, with its wiring and notches as before, and is back where it
    was after 26 steps. *)
Theorem Rotor_step_cadence (r : Rotor.t) (k : nat) :
  0 ≤ Rotor.pos r < 26 →
  Nat.iter k Rotor.step r
  = Rotor.mk (Rotor.map r) (Rotor.revMap r) (Rotor.steps r)
      ((Rotor.pos r + Z.of_nat k) `mod` 26) ∧
  0 ≤ Rotor.pos (Nat.iter k Rotor.step r) < 26 ∧
  Nat.iter 26 Rotor.step r = r ∧
  Nat.iter (k + 26) Rotor.step r = Nat.iter k Rotor.step r.
Proof.
  intros Hp.
  assert (∀ n, Nat.iter n Rotor.step r
    = Rotor.mk (Rotor.map r) (Rotor.revMap r) (Rotor.steps r)
        ((Rotor.pos r + Z.of_nat n) `mod` 26)) as Hiter.
  { intros n. destruct (Rotor_iter_step n r) as [H1 H2].
    rewrite H1. by rewrite H2. }
  split; [apply Hiter|]. split.
  - rewrite Hiter. cbn [Rotor.pos]. apply Z.mod_pos_bound. lia.
  - split.
    + rewrite Hiter. change (Z.of_nat 26) with 26.
      replace (Rotor.pos r + 26) with (Rotor.pos r + 1 * 26) by lia.
      rewrite Z_mod_plus_full, Z.mod_small by done. by destruct r.
    + rewrite !Hiter. f_equal.
      replace (Rotor.pos r + Z.of_nat (k + 26))
        with (Rotor.pos r + Z.of_nat k + 1 * 26) by lia.
      by rewrite Z_mod_plus_full.
Qed.

Lemma Rotor_step_cadence_witness :
  Nat.iter 30 Rotor.step (Rotor.mk ∅ ∅ ∅ 3)
  = Rotor.mk ∅ ∅ ∅ ((3 + Z.of_nat 30) `mod` 26) ∧
  0 ≤ Rotor.pos (Nat.iter 30 Rotor.step (Rotor.mk ∅ ∅ ∅ 3)) < 26 ∧
  Nat.iter 26 Rotor.step (Rotor.mk ∅ ∅ ∅ 3) = Rotor.mk ∅ ∅ ∅ 3 ∧
  Nat.iter (30 + 26) Rotor.step (Rotor.mk ∅ ∅ ∅ 3)
  = Nat.iter 30 Rotor.step (Rotor.mk ∅ ∅ ∅ 3).
Proof. apply (Rotor_step_cadence (Rotor.mk ∅ ∅ ∅ 3) 30). cbn. lia. Defined.



(** ** Plugboard and reflector *)

Lemma paired_covers (ts : list jsstring) (m : gmap Z Z) (u : Z) :
  paired ts m → u ∈ mjoin ts ↔ is_Some (m !! (u - 65)).
Proof.
  intros (Hlk & Hall & _). rewrite Forall_forall in Hall. split.
  - intros (tok & Hu & Htok)%list_elem_of_join.
    destruct (proj1 (match_upper_2 tok) (Hall _ Htok)) as (x & y & -> & _).
    apply list_elem_of_In in Hu as [<-|[<-|[]]].
    + exists (y - 65). apply Hlk. exists [x; y]. split; [done|]. left.
      f_equal; [lia|f_equal; lia].
    + exists (x - 65). apply Hlk. exists [x; y]. split; [done|]. right.
      f_equal; [lia|f_equal; lia].
  - intros [b Hb]. apply Hlk in Hb as (tok & Htok & Heq).
    apply list_elem_of_join. exists tok. split; [|done].
    replace (u - 65 + 65) with u in Heq by lia.
    destruct Heq as [->| ->]; [left|right; left].
Qed.

Lemma paired_size (ts : list jsstring) (m : gmap Z Z) :
  paired ts m → size m = (2 * length ts)%nat.
Proof.
  intros Hp. pose proof Hp as (_ & Hall & Hnd).
  assert (dom m = list_to_set ((λ u, u - 65) <$> mjoin ts)) as Hdom.
  { apply set_eq. intros a.
    rewrite elem_of_dom, elem_of_list_to_set, list_elem_of_fmap. split.
    - intros Ha. exists (a + 65). split; [lia|].
      apply (paired_covers ts m); [done|]. by replace (a + 65 - 65) with a by lia.
    - intros (u & -> & Hu). by apply (paired_covers ts m). }
  rewrite <- size_dom, Hdom, size_list_to_set, length_fmap.
  - clear -Hall. induction Hall as [|tok ts Htok _ IH]; [done|].
    apply match_upper_2 in Htok as (x & y & -> & _).
    change (mjoin ([x; y] :: ts)) with (x :: y :: mjoin ts). cbn [length].
    rewrite IH. lia.
  - apply NoDup_fmap_2; [|done]. intros x y. lia.
Qed.

(** Tokens that are pairs of letters, all letters distinct, are all
    registered. *)
Lemma add_pair_fold_Ok (name : jsstring) (ts : list jsstring) :
  Forall (λ tok, match_upper 2 2 tok = true) ts → NoDup (mjoin ts) →
  ∃ m, foldM (PairMapBase.add_pair name) ∅ ts = Ok m.
Proof.
  induction ts as [|tok ts IH] using rev_ind; intros Hall Hnd; [by exists ∅|].
  apply Forall_app in Hall as [Hall Htok]. apply Forall_cons in Htok as [Htok _].
  rewrite join_app in Hnd. apply NoDup_app in Hnd as (Hnd & Hdisj & Hndtok).
  destruct (IH Hall Hnd) as [m0 Hm0].
  pose proof (add_pair_fold _ _ _ Hm0) as Hp.
  apply match_upper_2 in Htok as (x & y & -> & Hx & Hy).
  rewrite foldM_snoc, Hm0. cbn [mbind result_bind].
  unfold PairMapBase.add_pair.
  assert (match_upper 2 2 [x; y] = true) as -> by (apply match_upper_2; by exists x, y).
  unfold char_at. cbn [negb lookup list_lookup fmap option_fmap option_map defined
    mbind result_bind].
  rewrite (a2i_upper x), (a2i_upper y) by done. cbn [mbind result_bind].
  cbn [mjoin list_join app] in Hndtok.
  apply NoDup_cons in Hndtok as [Hxy _]. rewrite list_elem_of_singleton in Hxy.
  replace (x - 65 =? y - 65) with false by lia.
  assert (∀ u, u ∈ [x; y] → m0 !! (u - 65) = None) as Hfree.
  { intros u Hu. apply eq_None_not_Some. intros Hsome.
    apply (paired_covers ts m0) in Hsome; [|done].
    apply (Hdisj u Hsome). by cbn [mjoin list_join app]. }
  rewrite !bool_decide_eq_false_2; [by eexists| |].
  - rewrite (Hfree y); [by intros [? ?]|right; left].
  - rewrite (Hfree x); [by intros [? ?]|left].
Qed.

(** X7. The pair-map constructor accepts exactly the empty string and the
    strings whose tokens are all pairs of upper-case letters with no letter
    used twice; the object's name plays no part in that. *)
Theorem PairMapBase_new_accepts (pairs name : jsstring) :
  (∃ p, PairMapBase.new pairs name = Ok p) ↔
  pairs = [] ∨
  (Forall (λ tok, match_upper 2 2 tok = true) (split_ws pairs) ∧
   NoDup (mjoin (split_ws pairs))).
Proof.
  split.
  - intros [p [[-> _]|[_ (_ & Hall & Hnd)]]%PairMapBase_new_Ok]; auto.
  - intros [->|[Hall Hnd]]; [by eexists|].
    unfold PairMapBase.new. case_bool_decide as Hemp; [by eexists|].
    destruct (add_pair_fold_Ok name _ Hall Hnd) as [m ->]. by eexists.
Qed.

(** X8. What a pair map does: the two letters of every pair in the string
    are swapped, and a letter that does not occur in the string is
    returned unchanged, as is any number outside the alphabet. *)
Theorem PairMapBase_transform_swaps (pairs name : jsstring) (p : PairMapBase.t)
    (a b c : Z) :
  PairMapBase.new pairs name = Ok p →
  ([a + 65; b + 65] ∈ split_ws pairs →
   PairMapBase.transform p (Some a) = Some b ∧
   PairMapBase.transform p (Some b) = Some a) ∧
  (c + 65 ∉ pairs → PairMapBase.transform p (Some c) = Some c) ∧
  (¬ 0 ≤ c < 26 → PairMapBase.transform p (Some c) = Some c) ∧
  PairMapBase.revTransform p (Some c) = PairMapBase.transform p (Some c).
Proof.
  intros H. pose proof (PairMapBase_new_wf _ _ _ H) as Hwf.
  apply PairMapBase_new_Ok in H as [[-> Hm]|[_ Hp]].
  - split; [intros Hin; apply list_elem_of_singleton in Hin; discriminate|].
    unfold PairMapBase.revTransform, PairMapBase.transform.
    cbn [mbind option_bind]. by rewrite Hm, !lookup_empty.
  - pose proof Hp as (Hlk & _ & _).
    split; [|split; [|split; [|done]]].
    + intros Hin. unfold PairMapBase.transform. cbn [mbind option_bind].
      assert (PairMapBase.map p !! a = Some b) as Hab by (apply Hlk; eauto).
      assert (PairMapBase.map p !! b = Some a) as Hba by (apply Hlk; eauto).
      by rewrite Hab, Hba.
    + intros Hnin. unfold PairMapBase.transform. cbn [mbind option_bind].
      destruct (PairMapBase.map p !! c) as [d|] eqn:Hc; [|done].
      exfalso. apply Hnin. apply Hlk in Hc as (tok & Htok & Heq).
      apply (split_ws_elem pairs tok); [done|].
      destruct Heq as [->| ->]; [left|right; left].
    + intros Hout. unfold PairMapBase.transform. cbn [mbind option_bind].
      destruct (PairMapBase.map p !! c) as [d|] eqn:Hc; [|done].
      apply Hwf in Hc as (_ & _ & ? & _). lia.
Qed.

Lemma PairMapBase_transform_swaps_witness :
  ∃ p, Plugboard.new (js "AB CD") = Ok p ∧
  ([0 + 65; 1 + 65] ∈ split_ws (js "AB CD") →
   PairMapBase.transform p (Some 0) = Some 1 ∧
   PairMapBase.transform p (Some 1) = Some 0) ∧
  (4 + 65 ∉ js "AB CD" → PairMapBase.transform p (Some 4) = Some 4) ∧
  (¬ 0 ≤ 4 < 26 → PairMapBase.transform p (Some 4) = Some 4) ∧
  PairMapBase.revTransform p (Some 4) = PairMapBase.transform p (Some 4).
Proof.
  eexists. split; [vm_compute; reflexivity|].
  apply (PairMapBase_transform_swaps (js "AB CD") (js "Plugboard")).
  vm_compute. reflexivity.
Defined.

(** X9. The reflector constructor accepts exactly the strings that the
    pair-map constructor accepts and that hold 13 pairs; such a string
    names every letter of the alphabet. *)
Theorem Reflector_new_accepts (pairs : jsstring) :
  ((∃ p, Reflector.new pairs = Ok p) ↔
   (∃ p, PairMapBase.new pairs (js "Reflector") = Ok p) ∧
   length (split_ws pairs) = 13%nat) ∧
  (∀ p c, Reflector.new pairs = Ok p → 0 ≤ c < 26 → c + 65 ∈ pairs).
Proof.
  assert (∀ p, PairMapBase.new pairs (js "Reflector") = Ok p →
            size (PairMapBase.map p) = 26%nat ↔ length (split_ws pairs) = 13%nat)
    as Hsize.
  { intros p [[-> Hm]|[_ Hp]]%PairMapBase_new_Ok.
    - rewrite Hm, map_size_empty. cbn. lia.
    - rewrite (paired_size _ _ Hp). lia. }
  split; [split|].
  - intros [p [Hp Hsz]%Reflector_new_Ok]. split; [by exists p|].
    by apply (Hsize p).
  - intros [[p Hp] Hlen]. exists p. unfold Reflector.new. rewrite Hp.
    cbn [mbind result_bind]. apply (Hsize p Hp) in Hlen. by rewrite Hlen.
  - intros p c H Hc. pose proof (Reflector_new_wf _ _ H) as [_ Htot].
    destruct (Htot c Hc) as [b Hb].
    apply Reflector_new_Ok in H as [H _].
    apply PairMapBase_new_Ok in H as [[_ Hm]|[_ (Hlk & _ & _)]].
    + by rewrite Hm, lookup_empty in Hb.
    + apply Hlk in Hb as (tok & Hin & Htok).
      apply (split_ws_elem pairs tok); [done|].
      destruct Htok as [->| ->]; [by left|right; by left].
Qed.

Lemma Reflector_new_accepts_witness :
  ∃ p, Reflector.new (catalog REFLECTORS "B") = Ok p ∧
       25 + 65 ∈ catalog REFLECTORS "B".
Proof.
  eexists. split; [vm_compute; reflexivity|].
  eapply (proj2 (Reflector_new_accepts (catalog REFLECTORS "B")));
    [vm_compute; reflexivity|lia].
Defined.

(** X10. The catalog is valid: every entry of [ROTORS] parses into a
    wiring and notches from which a rotor can be constructed at every ring
    setting and initial position, and every entry of [REFLECTORS]
    constructs a reflector. *)
Theorem catalog_valid :
  Forall (λ e, ∀ i, ∃ w s,
            Enigma.parseRotorStr e.2 i = Ok [w; s] ∧
            ∀ ring p, 65 ≤ ring ≤ 90 → 65 ≤ p ≤ 90 →
                      ∃ r, Rotor.new w s [ring] [p] = Ok r) ROTORS ∧
  Forall (λ e, ∃ p, Reflector.new e.2 = Ok p) REFLECTORS.
Proof.
  split.
  - repeat (apply Forall_cons; split; [|]); [..|apply Forall_nil_2];
      (intros i; eexists _, _; split; [vm_compute; reflexivity|];
       intros ring p Hring Hp; apply Rotor_new_complete;
       [vm_compute; reflexivity
       |apply (bool_decide_unpack _); vm_compute; exact I
       |vm_compute; reflexivity
       |apply (bool_decide_unpack _); vm_compute; exact I
       |apply match_upper_1; eauto
       |apply match_upper_1; eauto]).
  - repeat (apply Forall_cons; split; [|]); [..|apply Forall_nil_2];
      (eexists; vm_compute; reflexivity).
Qed.

(** ** Stepping the machine *)

Lemma step_two_rotors (r0 r1 : Rotor.t) (refl plug : PairMapBase.t) :
  EnigmaBase.step (EnigmaBase.mk [r0; r1] refl plug)
  = (if advance2 r0 r1 then Throw TypeError
     else Ok (EnigmaBase.mk
                [Rotor.step r0; if advance1 r0 r1 then Rotor.step r1 else r1]
                refl plug)).
Proof.
  unfold EnigmaBase.step, advance2, advance1, EnigmaBase.set_rotors. simpl.
  destruct (EnigmaBase.has (Rotor.steps r0) _); simpl;
    destruct (EnigmaBase.has (Rotor.steps r1) _); simpl; reflexivity.
Qed.

(** X11. [EnigmaBase] does not check the number of rotors: with fewer than
    two, [step] fails on the missing rotor with a [TypeError]; with two it
    works until the second rotor steps onto a notch and the missing third
    one is to be stepped. *)
Theorem step_few_rotors (m : EnigmaBase.t) (r0 r1 : Rotor.t)
    (refl plug : PairMapBase.t) :
  ((length (EnigmaBase.rotors m) < 2)%nat → EnigmaBase.step m = Throw TypeError) ∧
  EnigmaBase.step (EnigmaBase.mk [r0; r1] refl plug)
  = (if advance2 r0 r1 then Throw TypeError
     else Ok (EnigmaBase.mk
                [Rotor.step r0; if advance1 r0 r1 then Rotor.step r1 else r1]
                refl plug)).
Proof.
  split.
  - destruct m as [[|r [|r' rs]] ? ?]; cbn [EnigmaBase.rotors length]; try lia;
      intros _; reflexivity.
  - apply step_two_rotors.
Qed.

Lemma step_few_rotors_witness :
  EnigmaBase.step (EnigmaBase.mk [] (PairMapBase.mk ∅) (PairMapBase.mk ∅))
  = Throw TypeError.
Proof.
  apply (step_few_rotors (EnigmaBase.mk [] (PairMapBase.mk ∅) (PairMapBase.mk ∅))
           (Rotor.mk ∅ ∅ ∅ 0) (Rotor.mk ∅ ∅ ∅ 0) (PairMapBase.mk ∅) (PairMapBase.mk ∅)).
  cbn. lia.
Defined.

Lemma advance1_iff (r0 r1 : Rotor.t) :
  advance1 r0 r1 = true ↔
  (Rotor.pos r0 + 1) `mod` 26 ∈ Rotor.steps r0 ∨
  (Rotor.pos r1 + 1) `mod` 26 ∈ Rotor.steps r1.
Proof.
  unfold advance1, EnigmaBase.has, Utils.mod_.
  by rewrite orb_true_iff, !bool_decide_eq_true.
Qed.

Lemma advance2_iff (r0 r1 : Rotor.t) :
  advance2 r0 r1 = true ↔ (Rotor.pos r1 + 1) `mod` 26 ∈ Rotor.steps r1.
Proof.
  unfold advance2, advance1, EnigmaBase.has, Utils.mod_.
  rewrite andb_true_iff, orb_true_iff, !bool_decide_eq_true. tauto.
Qed.

(** X12. The double step: a middle rotor that stands one place before one
    of its notches steps on the next key press whatever the right-hand
    rotor does, and takes the left-hand rotor along.  So when the
    right-hand rotor carries the middle one to the place before its notch,
    the middle rotor steps on two key presses in a row, and the left-hand
    one on the second of them. *)
Theorem double_step (r0 r1 r2 : Rotor.t) (rest : list Rotor.t)
    (refl plug : PairMapBase.t) :
  ((Rotor.pos r1 + 1) `mod` 26 ∈ Rotor.steps r1 →
   EnigmaBase.step (EnigmaBase.mk (r0 :: r1 :: r2 :: rest) refl plug)
   = Ok (EnigmaBase.mk (Rotor.step r0 :: Rotor.step r1 :: Rotor.step r2 :: rest)
           refl plug)) ∧
  ((Rotor.pos r0 + 1) `mod` 26 ∈ Rotor.steps r0 →
   (Rotor.pos r1 + 1) `mod` 26 ∉ Rotor.steps r1 →
   (Rotor.pos (Rotor.step r1) + 1) `mod` 26 ∈ Rotor.steps r1 →
   stepn 1 (EnigmaBase.mk (r0 :: r1 :: r2 :: rest) refl plug)
   = Ok (EnigmaBase.mk (Rotor.step r0 :: Rotor.step r1 :: r2 :: rest) refl plug) ∧
   stepn 2 (EnigmaBase.mk (r0 :: r1 :: r2 :: rest) refl plug)
   = Ok (EnigmaBase.mk
           (Rotor.step (Rotor.step r0) :: Rotor.step (Rotor.step r1)
            :: Rotor.step r2 :: rest) refl plug)).
Proof.
  split.
  - intros H1. rewrite step_rotors.
    assert (advance2 r0 r1 = true) as -> by (by apply advance2_iff).
    assert (advance1 r0 r1 = true) as -> by (apply advance1_iff; by right).
    done.
  - intros H0 Hn1 H1'. cbn [stepn]. rewrite step_rotors.
    assert (advance1 r0 r1 = true) as -> by (apply advance1_iff; by left).
    assert (advance2 r0 r1 = false) as ->.
    { apply not_true_is_false. by rewrite advance2_iff. }
    cbn [mbind result_bind]. split; [done|]. rewrite step_rotors.
    assert (advance2 (Rotor.step r0) (Rotor.step r1) = true) as ->
      by (by apply advance2_iff).
    assert (advance1 (Rotor.step r0) (Rotor.step r1) = true) as ->
      by (apply advance1_iff; by right).
    done.
Qed.

Lemma double_step_witness :
  let r0 := Rotor.mk ∅ ∅ {[22]} 21 in
  let r1 := Rotor.mk ∅ ∅ {[5]} 3 in
  let r2 := Rotor.mk ∅ ∅ ∅ 0 in
  stepn 1 (EnigmaBase.mk [r0; r1; r2] (PairMapBase.mk ∅) (PairMapBase.mk ∅))
  = Ok (EnigmaBase.mk [Rotor.step r0; Rotor.step r1; r2]
          (PairMapBase.mk ∅) (PairMapBase.mk ∅)) ∧
  stepn 2 (EnigmaBase.mk [r0; r1; r2] (PairMapBase.mk ∅) (PairMapBase.mk ∅))
  = Ok (EnigmaBase.mk
          [Rotor.step (Rotor.step r0); Rotor.step (Rotor.step r1); Rotor.step r2]
          (PairMapBase.mk ∅) (PairMapBase.mk ∅)).
Proof.
  intros r0 r1 r2.
  apply (proj2 (double_step r0 r1 r2 [] (PairMapBase.mk ∅) (PairMapBase.mk ∅)));
    apply (bool_decide_unpack _); vm_compute; exact I.
Defined.

(** X13. Machine cadence: on a machine with at least three rotors any
    number of steps succeeds; rotor 0 steps every time, rotor 1 at most as
    often as rotor 0 and rotor 2 at most as often as rotor 1; further
    rotors, reflector and plugboard stay as they are; and when rotors 0
    and 1 have no notch, rotors 1 and 2 never move. *)
Theorem stepn_cadence (n : nat) (r0 r1 r2 : Rotor.t) (rest : list Rotor.t)
    (refl plug : PairMapBase.t) :
  ∃ k1 k2 : nat,
    stepn n (EnigmaBase.mk (r0 :: r1 :: r2 :: rest) refl plug)
    = Ok (EnigmaBase.mk
            (Nat.iter n Rotor.step r0 :: Nat.iter k1 Rotor.step r1
             :: Nat.iter k2 Rotor.step r2 :: rest) refl plug) ∧
    (k2 ≤ k1 ≤ n)%nat ∧
    (Rotor.steps r0 = ∅ → Rotor.steps r1 = ∅ → k1 = 0%nat ∧ k2 = 0%nat).
Proof.
  revert r0 r1 r2. induction n as [|n IH]; intros r0 r1 r2.
  - exists 0%nat, 0%nat. split; [done|]. split; [lia|done].
  - cbn [stepn]. rewrite step_rotors. cbn [mbind result_bind].
    destruct (IH (Rotor.step r0) (if advance1 r0 r1 then Rotor.step r1 else r1)
                 (if advance2 r0 r1 then Rotor.step r2 else r2))
      as (k1 & k2 & Hst & Hle & Hnone).
    rewrite Hst, <- Nat.iter_succ_r.
    assert (advance2 r0 r1 = true → advance1 r0 r1 = true) as H21.
    { rewrite advance2_iff, advance1_iff. tauto. }
    assert (Rotor.steps r0 = ∅ → Rotor.steps r1 = ∅ →
            advance1 r0 r1 = false ∧ advance2 r0 r1 = false) as Hfree.
    { intros E0 E1. unfold advance2, advance1, EnigmaBase.has. rewrite E0, E1.
      rewrite !bool_decide_eq_false_2 by apply not_elem_of_empty. done. }
    destruct (advance1 r0 r1) eqn:A1, (advance2 r0 r1) eqn:A2.
    + exists (S k1), (S k2). rewrite <- !Nat.iter_succ_r.
      split; [done|]. split; [lia|]. intros E0 E1. by destruct (Hfree E0 E1).
    + exists (S k1), k2. rewrite <- !Nat.iter_succ_r.
      split; [done|]. split; [lia|]. intros E0 E1. by destruct (Hfree E0 E1).
    + by specialize (H21 eq_refl).
    + exists k1, k2. split; [done|]. split; [lia|]. intros E0 E1. by apply Hnone.
Qed.

Lemma stepn_cadence_witness :
  ∃ k1 k2 : nat,
    stepn 30 (EnigmaBase.mk
                [Rotor.mk ∅ ∅ ∅ 0; Rotor.mk ∅ ∅ ∅ 0; Rotor.mk ∅ ∅ ∅ 0]
                (PairMapBase.mk ∅) (PairMapBase.mk ∅))
    = Ok (EnigmaBase.mk
            [Nat.iter 30 Rotor.step (Rotor.mk ∅ ∅ ∅ 0);
             Nat.iter k1 Rotor.step (Rotor.mk ∅ ∅ ∅ 0);
             Nat.iter k2 Rotor.step (Rotor.mk ∅ ∅ ∅ 0)]
            (PairMapBase.mk ∅) (PairMapBase.mk ∅)) ∧
    k1 = 0%nat ∧ k2 = 0%nat.
Proof.
  destruct (stepn_cadence 30 (Rotor.mk ∅ ∅ ∅ 0) (Rotor.mk ∅ ∅ ∅ 0)
              (Rotor.mk ∅ ∅ ∅ 0) [] (PairMapBase.mk ∅) (PairMapBase.mk ∅))
    as (k1 & k2 & H & _ & Hz).
  exists k1, k2. split; [exact H|]. apply Hz; reflexivity.
Defined.

(** ** Runs of [crypt] on any machine *)

Lemma same_wiring_step (r : Rotor.t) : same_wiring r (Rotor.step r).
Proof. done. Qed.

Lemma same_wiring_refl (r : Rotor.t) : same_wiring r r.
Proof. done. Qed.

Lemma same_wiring_trans (r r' r'' : Rotor.t) :
  same_wiring r r' → same_wiring r' r'' → same_wiring r r''.
Proof. intros (? & ? & ?) (? & ? & ?). repeat split; congruence. Qed.

Lemma Forall2_same_wiring_refl (rs : list Rotor.t) : Forall2 same_wiring rs rs.
Proof. induction rs; constructor; [apply same_wiring_refl|done]. Qed.

Lemma Forall2_same_wiring_trans (rs rs' rs'' : list Rotor.t) :
  Forall2 same_wiring rs rs' → Forall2 same_wiring rs' rs'' →
  Forall2 same_wiring rs rs''.
Proof.
  intros H. revert rs''. induction H as [|r r' rs rs' Hr _ IH]; intros rs'' H'.
  - by apply Forall2_nil_inv_l in H' as ->.
  - apply Forall2_cons_inv_l in H' as (r'' & rs3 & Hr' & H' & ->).
    constructor; [by eapply same_wiring_trans|by apply IH].
Qed.

(** What [step] leaves alone, on any machine. *)
Lemma step_frame (m m' : EnigmaBase.t) :
  EnigmaBase.step m = Ok m' →
  EnigmaBase.reflector m' = EnigmaBase.reflector m ∧
  EnigmaBase.plugboard m' = EnigmaBase.plugboard m ∧
  Forall2 same_wiring (EnigmaBase.rotors m) (EnigmaBase.rotors m') ∧
  drop 3 (EnigmaBase.rotors m') = drop 3 (EnigmaBase.rotors m).
Proof.
  destruct m as [[|r0 [|r1 [|r2 rest]]] refl plug].
  - discriminate.
  - discriminate.
  - rewrite step_two_rotors.
    destruct (advance2 r0 r1); [discriminate|]. intros [= <-].
    repeat split. cbn. repeat constructor; by destruct (advance1 r0 r1).
  - rewrite step_rotors. intros [= <-]. repeat split. cbn.
    repeat (apply Forall2_cons; split);
      [done|by destruct (advance1 r0 r1)|by destruct (advance2 r0 r1)|].
    apply Forall2_same_wiring_refl.
Qed.

Lemma stepn_frame (n : nat) (m m' : EnigmaBase.t) :
  stepn n m = Ok m' →
  EnigmaBase.reflector m' = EnigmaBase.reflector m ∧
  EnigmaBase.plugboard m' = EnigmaBase.plugboard m ∧
  Forall2 same_wiring (EnigmaBase.rotors m) (EnigmaBase.rotors m') ∧
  drop 3 (EnigmaBase.rotors m') = drop 3 (EnigmaBase.rotors m).
Proof.
  revert m. induction n as [|n IH]; intros m H.
  - injection H as <-. repeat split. apply Forall2_same_wiring_refl.
  - cbn [stepn] in H. apply bind_Ok in H as (m1 & H1 & H).
    apply step_frame in H1 as (E1 & E2 & E3 & E4).
    apply IH in H as (F1 & F2 & F3 & F4).
    split; [congruence|]. split; [congruence|]. split; [|congruence].
    by eapply Forall2_same_wiring_trans.
Qed.

(** X14. What [crypt] never touches: on any machine a run that returns
    leaves reflector and plugboard as they were, keeps the wiring and the
    notches of every rotor, and keeps every rotor after the third
    altogether; only positions of the first three rotors change. *)
Theorem crypt_frame (m m' : EnigmaBase.t) (input out : jsstring) :
  EnigmaBase.crypt m input = Ok (m', out) →
  EnigmaBase.reflector m' = EnigmaBase.reflector m ∧
  EnigmaBase.plugboard m' = EnigmaBase.plugboard m ∧
  Forall2 same_wiring (EnigmaBase.rotors m) (EnigmaBase.rotors m') ∧
  drop 3 (EnigmaBase.rotors m') = drop 3 (EnigmaBase.rotors m).
Proof. intros H. apply crypt_inv in H as [_ H]. by eapply stepn_frame. Qed.

Lemma crypt_frame_witness :
  ∃ m m' out,
    construct (config_AAA "III" "II" "I") = Ok m ∧
    EnigmaBase.crypt m (js "Enigma") = Ok (m', out) ∧
    EnigmaBase.reflector m' = EnigmaBase.reflector m ∧
    EnigmaBase.plugboard m' = EnigmaBase.plugboard m ∧
    Forall2 same_wiring (EnigmaBase.rotors m) (EnigmaBase.rotors m') ∧
    drop 3 (EnigmaBase.rotors m') = drop 3 (EnigmaBase.rotors m).
Proof.
  eexists _, _, _. split; [vm_compute; reflexivity|].
  split; [vm_compute; reflexivity|].
  eapply crypt_frame with (input := js "Enigma"). vm_compute. reflexivity.
Defined.

(** *** Continuing a session *)

Lemma string_iter_app (s1 s2 : jsstring) :
  splits_pair s1 s2 = false →
  string_iter (s1 ++ s2) = string_iter s1 ++ string_iter s2.
Proof.
  induction s1 as [|u|u v s E IH|u v s E IH] using string_iter_ind; intros Hsp.
  - done.
  - destruct s2 as [|v s2]; [done|]. cbn in Hsp.
    change ([u] ++ v :: s2) with (u :: v :: s2).
    by rewrite string_iter_single.
  - change ((u :: v :: s) ++ s2) with (u :: v :: (s ++ s2)).
    rewrite !string_iter_pair by done. rewrite IH; [done|].
    destruct s as [|x s]; [by destruct s2|done].
  - change ((u :: v :: s) ++ s2) with (u :: v :: (s ++ s2)).
    rewrite !string_iter_single by done.
    change (v :: s ++ s2) with ((v :: s) ++ s2). by rewrite IH.
Qed.

Lemma crypt_char_acc (m : EnigmaBase.t) (acc l : jsstring) :
  EnigmaBase.crypt_char (m, acc) l
  = EnigmaBase.crypt_char (m, []) l ≫= λ r, Ok (r.1, acc ++ r.2).
Proof.
  unfold EnigmaBase.crypt_char. cbn [fst snd].
  destruct (a2i l true) as [n|e]; [|done]. cbn [mbind result_bind].
  destruct (n =? -1); [done|].
  destruct (EnigmaBase.step m) as [m1|e]; [|done]. cbn [mbind result_bind].
  by destruct (i2a _).
Qed.

Lemma crypt_fold_acc (cs : list jsstring) (m : EnigmaBase.t) (acc : jsstring) :
  foldM EnigmaBase.crypt_char (m, acc) cs
  = foldM EnigmaBase.crypt_char (m, []) cs ≫= λ r, Ok (r.1, acc ++ r.2).
Proof.
  revert m acc. induction cs as [|c cs IH]; intros m acc.
  - cbn. by rewrite app_nil_r.
  - cbn [foldM]. rewrite crypt_char_acc.
    destruct (EnigmaBase.crypt_char (m, []) c) as [[m1 o1]|e]; [|done].
    cbn [mbind result_bind fst snd]. rewrite (IH m1 (acc ++ o1)), (IH m1 o1).
    destruct (foldM EnigmaBase.crypt_char (m1, []) cs) as [[m2 o2]|e]; [|done].
    cbn [mbind result_bind fst snd]. by rewrite app_assoc.
Qed.

(** X15. A session can be continued: a run over two strings joined, the
    seam not falling inside a surrogate pair, is a run over the first
    followed by a run over the second on the machine as the first run left
    it, with the same errors. *)
Theorem crypt_app (m : EnigmaBase.t) (s1 s2 : jsstring) :
  splits_pair s1 s2 = false →
  EnigmaBase.crypt m (s1 ++ s2)
  = (r1 ← EnigmaBase.crypt m s1;
     r2 ← EnigmaBase.crypt r1.1 s2;
     Ok (r2.1, r1.2 ++ r2.2)).
Proof.
  intros Hsp. unfold EnigmaBase.crypt.
  rewrite string_iter_app, foldM_app by done.
  destruct (foldM EnigmaBase.crypt_char (m, []) (string_iter s1)) as [[m1 o1]|e];
    [|done].
  cbn [mbind result_bind fst snd]. apply crypt_fold_acc.
Qed.

Lemma crypt_app_witness :
  EnigmaBase.crypt (EnigmaBase.mk [] (PairMapBase.mk ∅) (PairMapBase.mk ∅))
    (js "12" ++ js "34")
  = (r1 ← EnigmaBase.crypt
            (EnigmaBase.mk [] (PairMapBase.mk ∅) (PairMapBase.mk ∅)) (js "12");
     r2 ← EnigmaBase.crypt r1.1 (js "34");
     Ok (r2.1, r1.2 ++ r2.2)).
Proof. apply crypt_app. reflexivity. Defined.

(** *** Letters in either case, and no letters at all *)

Lemma upcase_idemp (u : Z) : upcase (upcase u) = upcase u.
Proof.
  unfold upcase. destruct ((97 <=? u) && (u <=? 122)) eqn:E; [|by rewrite E].
  by replace ((97 <=? u - 32) && (u - 32 <=? 122)) with false by lia.
Qed.

Lemma upcase_surrogate (u : Z) :
  is_high_surrogate (upcase u) = is_high_surrogate u ∧
  is_low_surrogate (upcase u) = is_low_surrogate u.
Proof.
  unfold upcase, is_high_surrogate, is_low_surrogate.
  destruct ((97 <=? u) && (u <=? 122)) eqn:E; [|done]. split; lia.
Qed.

Lemma string_iter_upcase (s : jsstring) :
  string_iter (upcase <$> s) = fmap (M:=list) upcase <$> string_iter s.
Proof.
  induction s as [|u|u v s E IH|u v s E IH] using string_iter_ind.
  - done.
  - done.
  - rewrite !fmap_cons, !string_iter_pair, fmap_cons, IH; [done..|].
    destruct (upcase_surrogate u) as [-> _].
    by destruct (upcase_surrogate v) as [_ ->].
  - rewrite (fmap_cons upcase u), (fmap_cons upcase v).
    rewrite !string_iter_single, fmap_cons; [|done|].
    + by rewrite <- IH.
    + destruct (upcase_surrogate u) as [-> _].
      by destruct (upcase_surrogate v) as [_ ->].
Qed.

Lemma crypt_char_upcase (st : EnigmaBase.t * jsstring) (c : jsstring) :
  chunk c → EnigmaBase.crypt_char st (upcase <$> c) = EnigmaBase.crypt_char st c.
Proof.
  intros Hc. destruct (a2i c true) as [n|e] eqn:Ha.
  - destruct (a2i_range _ _ Ha) as [->|Hn].
    + replace (upcase <$> c) with c; [done|].
      pose proof (other_chunk c Hc Ha) as Hall. clear -Hall.
      induction Hall as [|u c Hu Hall IHc]; [done|].
      by rewrite fmap_cons, upcase_other, <- IHc.
    + destruct (a2i_chunk _ _ Hc Ha Hn) as (u & -> & Hu & ->).
      unfold EnigmaBase.crypt_char. cbn [fmap list_fmap].
      rewrite Ha, a2i_letter by (by apply upcase_upper, upcase_letter).
      rewrite upcase_idemp. cbn [mbind result_bind].
      by replace (upcase u - 65 =? -1) with false by lia.
  - exfalso. destruct Hc as [[u ->]|(h & lo & -> & E)].
    + destruct (is_letter u) eqn:Hu.
      * by rewrite a2i_letter in Ha.
      * by rewrite a2i_other in Ha.
    + by rewrite a2i_pair in Ha.
Qed.

(** X16. [crypt] takes letters in either case alike: on any machine, the
    input with its ASCII letters in upper case gives the same machine and
    the same output, or the same error, as the input itself. *)
Theorem crypt_case_insensitive (m : EnigmaBase.t) (input : jsstring) :
  EnigmaBase.crypt m (upcase <$> input) = EnigmaBase.crypt m input.
Proof.
  unfold EnigmaBase.crypt. rewrite string_iter_upcase.
  generalize (string_iter_chunks input). generalize (m, @nil Z).
  induction (string_iter input) as [|c cs IH]; intros st Hcs; [done|].
  apply Forall_cons in Hcs as [Hc Hcs].
  rewrite fmap_cons. cbn [foldM]. rewrite crypt_char_upcase by done.
  destruct (EnigmaBase.crypt_char st c) as [st'|e]; [|done].
  cbn [mbind result_bind]. by apply IH.
Qed.

(** X17. Without letters nothing happens: on any machine, also one on
    which [step] would fail, an input without ASCII letters comes back as
    it is and the machine is as before. *)
Theorem crypt_no_letters (m : EnigmaBase.t) (input : jsstring) :
  Forall (λ u, is_letter u = false) input →
  EnigmaBase.crypt m input = Ok (m, input).
Proof.
  intros Hall. unfold EnigmaBase.crypt.
  enough (∀ acc, foldM EnigmaBase.crypt_char (m, acc) (string_iter input)
                 = Ok (m, acc ++ input)) as H by apply (H []).
  induction input as [|u|u v s E IH|u v s E IH] using string_iter_ind; intros acc.
  - cbn. by rewrite app_nil_r.
  - apply Forall_cons in Hall as [Hu _]. cbn [string_iter foldM].
    by rewrite crypt_char_other by (by apply a2i_other).
  - apply Forall_cons in Hall as [_ Hall]. apply Forall_cons in Hall as [_ Hall].
    rewrite string_iter_pair by done. cbn [foldM].
    rewrite crypt_char_other by (by apply a2i_pair). cbn [mbind result_bind fst snd].
    rewrite IH by done. by rewrite <- app_assoc.
  - apply Forall_cons in Hall as [Hu Hall].
    rewrite string_iter_single by done. cbn [foldM].
    rewrite crypt_char_other by (by apply a2i_other). cbn [mbind result_bind fst snd].
    rewrite IH by done. by rewrite <- app_assoc.
Qed.

Lemma crypt_no_letters_witness :
  EnigmaBase.crypt (EnigmaBase.mk [] (PairMapBase.mk ∅) (PairMapBase.mk ∅))
    (js "1914-1918")
  = Ok (EnigmaBase.mk [] (PairMapBase.mk ∅) (PairMapBase.mk ∅), js "1914-1918").
Proof.
  apply crypt_no_letters.
  repeat (apply Forall_cons; split; [reflexivity|]). apply Forall_nil_2.
Defined.

(** ** The operation: rotor strings *)

Lemma split_on_no_sep (sep : Z) (cur s : jsstring) :
  sep ∉ s → Enigma.split_on sep cur s = [reverse cur ++ s].
Proof.
  revert cur. induction s as [|u s IH]; intros cur Hs.
  - cbn. by rewrite app_nil_r.
  - apply not_elem_of_cons in Hs as [Hu Hs]. cbn [Enigma.split_on].
    replace (u =? sep) with false by lia.
    rewrite IH by done. by rewrite reverse_cons, <- app_assoc.
Qed.

Lemma split_on_first (sep : Z) (cur w rest : jsstring) :
  sep ∉ w →
  Enigma.split_on sep cur (w ++ sep :: rest)
  = (reverse cur ++ w) :: Enigma.split_on sep [] rest.
Proof.
  revert cur. induction w as [|u w IH]; intros cur Hw.
  - cbn [app Enigma.split_on]. rewrite Z.eqb_refl. by rewrite app_nil_r.
  - apply not_elem_of_cons in Hw as [Hu Hw]. cbn [app Enigma.split_on].
    replace (u =? sep) with false by lia.
    rewrite IH by done. by rewrite reverse_cons, <- app_assoc.
Qed.

Lemma split_on_head (sep : Z) (cur s : jsstring) :
  sep ∉ cur → ∃ t ts, Enigma.split_on sep cur s = t :: ts ∧ sep ∉ t.
Proof.
  revert cur. induction s as [|u s IH]; intros cur Hnin.
  - exists (reverse cur), []. split; [done|]. by rewrite elem_of_reverse.
  - cbn [Enigma.split_on]. destruct (u =? sep) eqn:E.
    + exists (reverse cur), (Enigma.split_on sep [] s).
      split; [done|]. by rewrite elem_of_reverse.
    + apply IH. rewrite not_elem_of_cons. split; [lia|done].
Qed.

Lemma parseRotorStr_two (rotor : jsstring) (i : Z) (parts : list jsstring) :
  Enigma.parseRotorStr rotor i = Ok parts →
  ∃ w' s', parts = [w'; s'] ∧ (60 ∉ w') ∧ (60 ∉ s').
Proof.
  unfold Enigma.parseRotorStr. case_bool_decide as Hemp; [done|].
  case_bool_decide as Hlt; cbn [negb].
  + apply list_elem_of_split_l in Hlt as (w' & rest & -> & Hw').
    rewrite split_on_first by done. cbn [reverse app take].
    destruct (split_on_head 60 [] rest) as (t' & ts & -> & Ht');
      [apply not_elem_of_nil|].
    intros [= <-]. by exists w', t'.
  + intros [= <-]. exists rotor, []. split; [done|]. split; [done|].
    apply not_elem_of_nil.
Qed.

(** X18. Rotor strings: [parseRotorStr] fails exactly on the empty string
    and otherwise gives two parts, neither with a [<] in it: the text
    before the first [<], and the text between it and the next [<] or the
    end, so that what follows a second [<] is dropped; a string without
    [<] is a wiring with no notches. *)
Theorem parseRotorStr_parts (w s t rotor : jsstring) (i : Z) :
  60 ∉ w → 60 ∉ s →
  Enigma.parseRotorStr (w ++ (60 :: s)) i = Ok [w; s] ∧
  Enigma.parseRotorStr (w ++ (60 :: s) ++ (60 :: t)) i = Ok [w; s] ∧
  (w ≠ [] → Enigma.parseRotorStr w i = Ok [w; []]) ∧
  ((∃ e, Enigma.parseRotorStr rotor i = Throw e) ↔ rotor = []) ∧
  (∀ parts, Enigma.parseRotorStr rotor i = Ok parts →
     ∃ w' s', parts = [w'; s'] ∧ (60 ∉ w') ∧ (60 ∉ s')).
Proof.
  intros Hw Hs.
  assert (∀ rest, 60 ∈ w ++ 60 :: rest) as Hin.
  { intros rest. apply elem_of_app. right. left. }
  assert (∀ rest, w ++ 60 :: rest ≠ []) as Hne by (intros rest; by destruct w).
  split; [|split; [|split; [|split]]].
  - unfold Enigma.parseRotorStr. cbn [app].
    rewrite bool_decide_eq_false_2, bool_decide_eq_true_2 by done. cbn [negb].
    rewrite split_on_first, split_on_no_sep by done. done.
  - unfold Enigma.parseRotorStr. cbn [app].
    rewrite bool_decide_eq_false_2, bool_decide_eq_true_2 by done. cbn [negb].
    change ((60 :: s) ++ 60 :: t) with (60 :: (s ++ 60 :: t)).
    rewrite split_on_first, split_on_first by done. done.
  - intros Hwne. unfold Enigma.parseRotorStr.
    by rewrite bool_decide_eq_false_2, bool_decide_eq_false_2 by done.
  - unfold Enigma.parseRotorStr. case_bool_decide as Hemp.
    + split; [done|]. intros _. by eexists.
    + split; [|done]. intros [e He]. by destruct (negb _).
  - intros parts. apply parseRotorStr_two.
Qed.

Lemma parseRotorStr_parts_witness :
  Enigma.parseRotorStr (js "ABC" ++ (60 :: js "DE")) 1 = Ok [js "ABC"; js "DE"] ∧
  Enigma.parseRotorStr (js "ABC" ++ (60 :: js "DE") ++ (60 :: js "F")) 1
  = Ok [js "ABC"; js "DE"] ∧
  (js "ABC" ≠ [] → Enigma.parseRotorStr (js "ABC") 1 = Ok [js "ABC"; []]) ∧
  ((∃ e, Enigma.parseRotorStr (js "") 1 = Throw e) ↔ js "" = []) ∧
  (∀ parts, Enigma.parseRotorStr (js "") 1 = Ok parts →
     ∃ w' s', parts = [w'; s'] ∧ (60 ∉ w') ∧ (60 ∉ s')).
Proof.
  apply (parseRotorStr_parts (js "ABC") (js "DE") (js "F") (js "") 1);
    apply (bool_decide_unpack _); vm_compute; exact I.
Defined.

(** ** The operation: grouping in fives *)

Lemma group5_short (s : jsstring) : (length s ≤ 5)%nat → Enigma.group5 s = s.
Proof.
  intros Hlen.
  destruct s as [|a [|b [|c [|d [|e [|f s]]]]]]; try reflexivity.
  simpl in Hlen. lia.
Qed.

Lemma group5_long (a b c d e f : Z) (s : jsstring) :
  Enigma.group5 (a :: b :: c :: d :: e :: f :: s)
  = if forallb is_upper [a; b; c; d; e]
    then a :: b :: c :: d :: e :: 32 :: Enigma.group5 (f :: s)
    else a :: Enigma.group5 (b :: c :: d :: e :: f :: s).
Proof. reflexivity. Qed.

Lemma group5_upper (s : jsstring) :
  Forall (λ u, 65 ≤ u ≤ 90) s → (5 < length s)%nat →
  Enigma.group5 s = take 5 s ++ 32 :: Enigma.group5 (drop 5 s).
Proof.
  intros Hs Hlen.
  destruct s as [|a [|b [|c [|d [|e [|f s]]]]]]; simpl in Hlen; try lia.
  rewrite group5_long.
  repeat (apply Forall_cons in Hs as [?%is_upper_spec Hs]).
  cbn [forallb]. by repeat match goal with H : is_upper _ = true |- _ => rewrite H; clear H end.
Qed.

Lemma group5_upper_facts (t : jsstring) :
  Forall (λ u, 65 ≤ u ≤ 90) t →
  Enigma.strip (Enigma.group5 t) = t ∧
  length (Enigma.group5 t) = (length t + (length t - 1) / 5)%nat ∧
  last (Enigma.group5 t) = last t.
Proof.
  enough (∀ n (t : jsstring), length t = n → Forall (λ u, 65 ≤ u ≤ 90) t →
    Enigma.strip (Enigma.group5 t) = t ∧
    length (Enigma.group5 t) = (length t + (length t - 1) / 5)%nat ∧
    last (Enigma.group5 t) = last t) as Hind by (intros Ht; by eapply Hind).
  clear t.
  induction n as [n IH] using lt_wf_ind. intros t Hn Ht.
  destruct (decide (length t ≤ 5)%nat) as [Hle|Hgt].
  - rewrite group5_short by done. split; [|split; [|done]].
    + unfold Enigma.strip. clear -Ht.
      induction Ht as [|u t' Hu _ IHt]; [done|].
      rewrite filter_cons_True, IHt; [done|]. unfold is_letter. lia.
    + rewrite (Nat.div_small (length t - 1) 5) by lia. lia.
  - rewrite group5_upper by (done || lia).
    assert (length (drop 5 t) < n)%nat as Hlt by (rewrite length_drop; lia).
    destruct (IH _ Hlt (drop 5 t) eq_refl) as (IH1 & IH2 & IH3);
      [by apply Forall_drop|].
    split; [|split].
    + unfold Enigma.strip in *. rewrite filter_app, filter_cons_False by done.
      rewrite IH1. etrans; [|apply (take_drop 5 t)]. f_equal.
      assert (Forall (λ u, 65 ≤ u ≤ 90) (take 5 t)) as Ht5 by (by apply Forall_take).
      clear -Ht5. induction Ht5 as [|u t' Hu _ IHt]; [done|].
      rewrite filter_cons_True, IHt; [done|]. unfold is_letter. lia.
    + rewrite length_app, length_take. cbn [length]. rewrite IH2, length_drop.
      replace (length t - 1)%nat with ((length t - 5 - 1) + 1 * 5)%nat by lia.
      rewrite Nat.div_add by lia. lia.
    + etrans; [|apply (f_equal last (take_drop 5 t))].
      rewrite !last_app, last_cons, IH3.
      destruct (last (drop 5 t)) eqn:Hd; [done|].
      apply last_None, (f_equal length) in Hd.
      rewrite length_drop in Hd. simpl in Hd. lia.
Qed.

(** X19. Grouping in fives only adds spaces: taking the spaces out of a
    grouped string gives what taking them out of the string itself gives.
    For a string of upper-case letters the grouped string has one space
    after every five letters that are followed by more, so it never ends
    in a space, and a string of at most five letters is left as it is. *)
Theorem group5_spaces (s : jsstring) :
  filter (λ u, u ≠ 32) (Enigma.group5 s) = filter (λ u, u ≠ 32) s ∧
  (Forall (λ u, 65 ≤ u ≤ 90) s →
   Enigma.strip (Enigma.group5 s) = s ∧
   length (Enigma.group5 s) = (length s + (length s - 1) / 5)%nat ∧
   last (Enigma.group5 s) = last s ∧
   ((5 < length s)%nat →
    Enigma.group5 s = take 5 s ++ 32 :: Enigma.group5 (drop 5 s)) ∧
   ((length s ≤ 5)%nat → Enigma.group5 s = s)).
Proof.
  split.
  - remember (length s) as n eqn:Hn.
    revert s Hn. induction n as [n IH] using lt_wf_ind. intros s ->.
    destruct (decide (length s ≤ 5)%nat) as [Hle|Hgt]; [by rewrite group5_short|].
    destruct s as [|a [|b [|c [|d [|e [|f s]]]]]]; simpl in Hgt; try lia.
    rewrite group5_long. destruct (forallb is_upper [a; b; c; d; e]).
    + rewrite !(filter_cons _ a), !(filter_cons _ b), !(filter_cons _ c),
        !(filter_cons _ d), !(filter_cons _ e).
      rewrite (filter_cons_False _ 32) by (intros H; by apply H).
      rewrite (IH (length (f :: s))); [done| |done]. simpl. lia.
    + rewrite !(filter_cons _ a).
      rewrite (IH (length (b :: c :: d :: e :: f :: s))); [done| |done].
      simpl. lia.
  - intros Hs.
    destruct (group5_upper_facts s Hs) as (H1 & H2 & H3).
    split; [done|]. split; [done|]. split; [done|]. split.
    + by apply group5_upper.
    + apply group5_short.
Qed.

Lemma group5_spaces_witness :
  filter (λ u, u ≠ 32) (Enigma.group5 (js "ABCDEFGHIJKL"))
  = filter (λ u, u ≠ 32) (js "ABCDEFGHIJKL") ∧
  Enigma.strip (Enigma.group5 (js "ABCDEFGHIJKL")) = js "ABCDEFGHIJKL" ∧
  length (Enigma.group5 (js "ABCDEFGHIJKL"))
  = (length (js "ABCDEFGHIJKL") + (length (js "ABCDEFGHIJKL") - 1) / 5)%nat.
Proof.
  destruct (group5_spaces (js "ABCDEFGHIJKL")) as [H1 H2].
  split; [exact H1|].
  destruct H2 as (H2 & H3 & _).
  - apply (bool_decide_unpack _). vm_compute. exact I.
  - split; [exact H2|exact H3].
Defined.

(** ** The operation: [run] *)

(** [run] builds its machine from the arguments alone, and then runs
    [crypt]. *)
Lemma run_eq (input : jsstring) (a : Enigma.args) :
  Enigma.run input a
  = (m ← run_machine a;
     r ← EnigmaBase.crypt m
           (if Enigma.removeOther a then Enigma.strip input else input);
     Ok (if Enigma.removeOther a then Enigma.group5 r.2 else r.2)).
Proof.
  unfold Enigma.run, run_machine.
  destruct (Enigma.parsed_rotor (Enigma.rotor1str a) _ _ _) as [r1|e]; [|done].
  destruct (Enigma.parsed_rotor (Enigma.rotor2str a) _ _ _) as [r2|e]; [|done].
  destruct (Enigma.parsed_rotor (Enigma.rotor3str a) _ _ _) as [r3|e]; [|done].
  cbn [mbind result_bind].
  destruct (if negb (bool_decide (Enigma.rotor4str a = [])) then _ else _)
    as [rs|e]; [|done].
  cbn [mbind result_bind].
  destruct (Reflector.new _) as [refl|e]; [|done].
  destruct (Plugboard.new _) as [plug|e]; done.
Qed.

Lemma parsed_rotor_throws (rotor ring p : jsstring) (i : Z) (e : exn) :
  Enigma.parsed_rotor rotor i ring p = Throw e → is_OperationError e.
Proof.
  unfold Enigma.parsed_rotor. intros H.
  destruct (Enigma.parseRotorStr rotor i) as [parts|e'] eqn:Hparts.
  - destruct (parseRotorStr_two _ _ _ Hparts) as (w & s & -> & _).
    cbn in H. by eapply Rotor_new_throws.
  - cbn in H. injection H as <-. unfold Enigma.parseRotorStr in Hparts.
    case_bool_decide; [|by destruct (negb _)].
    injection Hparts as <-. by eexists.
Qed.

Lemma run_machine_wf (a : Enigma.args) (m : EnigmaBase.t) :
  run_machine a = Ok m → Machine_wf m.
Proof.
  unfold run_machine. intros H.
  apply bind_Ok in H as (r1 & H1 & H). apply bind_Ok in H as (r2 & H2 & H).
  apply bind_Ok in H as (r3 & H3 & H). apply bind_Ok in H as (rs & Hrs & H).
  apply bind_Ok in H as (refl & Hrefl & H). apply bind_Ok in H as (plug & Hplug & H).
  apply EnigmaMachine_new_Ok in H as [-> Hlen].
  apply parsed_rotor_wf in H1, H2, H3.
  split; [|split; [cbn; lia|split]]; cbn.
  - destruct (negb (bool_decide (Enigma.rotor4str a = []))).
    + apply bind_Ok in Hrs as (r4 & H4 & Hrs). injection Hrs as <-.
      apply parsed_rotor_wf in H4.
      repeat (apply Forall_cons; split; [done|]). constructor.
    + injection Hrs as <-.
      repeat (apply Forall_cons; split; [done|]). constructor.
  - by eapply Reflector_new_wf.
  - by eapply PairMapBase_new_wf.
Qed.

Lemma run_machine_throws (a : Enigma.args) (e : exn) :
  run_machine a = Throw e → is_OperationError e.
Proof.
  unfold run_machine. intros H.
  apply bind_Throw in H as [H|(r1 & _ & H)]; [by eapply parsed_rotor_throws|].
  apply bind_Throw in H as [H|(r2 & _ & H)]; [by eapply parsed_rotor_throws|].
  apply bind_Throw in H as [H|(r3 & _ & H)]; [by eapply parsed_rotor_throws|].
  apply bind_Throw in H as [H|(rs & _ & H)].
  { destruct (negb _); [|discriminate].
    apply bind_Throw in H as [H|(r4 & _ & H)]; [by eapply parsed_rotor_throws|].
    discriminate. }
  apply bind_Throw in H as [H|(refl & _ & H)]; [by eapply Reflector_new_throws|].
  apply bind_Throw in H as [H|(plug & _ & H)]; [by eapply PairMapBase_new_throws|].
  by eapply EnigmaMachine_new_throws.
Qed.

(** X20. The operation fails only on its configuration: whether [run]
    returns depends on the arguments and not on the input; when it throws,
    it throws the same [OperationError] for every input, and never a
    [TypeError]. *)
Theorem run_errors (a : Enigma.args) (input input' : jsstring) :
  (∀ e, Enigma.run input a = Throw e →
        is_OperationError e ∧ Enigma.run input' a = Throw e) ∧
  (∀ out, Enigma.run input a = Ok out → ∃ out', Enigma.run input' a = Ok out').
Proof.
  rewrite !run_eq. destruct (run_machine a) as [m|e0] eqn:Hm.
  - apply run_machine_wf in Hm. cbn [mbind result_bind].
    destruct (crypt_wf m (if Enigma.removeOther a then Enigma.strip input else input) Hm)
      as (m1 & o1 & -> & _).
    destruct (crypt_wf m (if Enigma.removeOther a then Enigma.strip input' else input') Hm)
      as (m2 & o2 & -> & _).
    cbn [mbind result_bind]. split; [done|]. intros out _. by eexists.
  - apply run_machine_throws in Hm. cbn [mbind result_bind].
    split; [|done]. by intros e [= <-].
Qed.

Lemma run_errors_witness :
  ∃ e, Enigma.run (js "A")
         (Enigma.mkArgs (catalog ROTORS "III") (js "A") (js "A")
            (catalog ROTORS "II") (js "A") (js "A")
            (catalog ROTORS "I") (js "A") (js "A")
            (js "") (js "A") (catalog REFLECTORS "B") (js "AA") false)
       = Throw e ∧
       is_OperationError e ∧
       Enigma.run (js "hello")
         (Enigma.mkArgs (catalog ROTORS "III") (js "A") (js "A")
            (catalog ROTORS "II") (js "A") (js "A")
            (catalog ROTORS "I") (js "A") (js "A")
            (js "") (js "A") (catalog REFLECTORS "B") (js "AA") false)
       = Throw e.
Proof.
  eexists. split; [vm_compute; reflexivity|].
  eapply (proj1 (run_errors _ (js "A") (js "hello"))).
  vm_compute. reflexivity.
Defined.

Lemma filter_letters_upcase (s : jsstring) :
  Forall (λ u, is_letter u = true) s → Forall (λ u, 65 ≤ u ≤ 90) (upcase <$> s).
Proof.
  induction 1 as [|u s Hu _ IH]; [constructor|].
  rewrite fmap_cons. constructor; [by apply upcase_letter|done].
Qed.

Lemma strip_letters (input : jsstring) :
  Forall (λ u, is_letter u = true) (Enigma.strip input).
Proof.
  unfold Enigma.strip. apply Forall_forall. intros u Hu.
  by apply list_elem_of_filter in Hu as [? _].
Qed.

(** The output for an input of letters only. *)
Lemma enc_unit_letters (R : Z → Z → Prop) (s o : jsstring) :
  Forall (λ u, is_letter u = true) s → Forall2 (enc_unit R) s o →
  Forall2 (λ u v, 65 ≤ v ≤ 90 ∧ R u v) s o.
Proof.
  intros Hs H. induction H as [|u v s o Huv _ IH]; [constructor|].
  apply Forall_cons in Hs as [Hu Hs]. constructor; [|by apply IH].
  unfold enc_unit in Huv. by rewrite Hu in Huv.
Qed.

(** X21. With other characters dropped, the output of [run] is the
    grouping in fives of one upper-case letter for each ASCII letter of the
    input, in order, none of them the upper-case form of the letter it
    stands for. *)
Theorem run_stripped_output (a : Enigma.args) (input out : jsstring) :
  Enigma.removeOther a = true → Enigma.run input a = Ok out →
  ∃ o, out = Enigma.group5 o ∧
       Forall2 (λ u v, 65 ≤ v ≤ 90 ∧ v ≠ upcase u) (Enigma.strip input) o ∧
       Enigma.strip out = o.
Proof.
  intros Hrm H. rewrite run_eq, Hrm in H.
  apply bind_Ok in H as (m & Hm & H). apply run_machine_wf in Hm.
  destruct (crypt_wf m (Enigma.strip input) Hm) as (m1 & o & Hc & _ & Henc & _).
  rewrite Hc in H. cbn [mbind result_bind snd] in H. injection H as <-.
  apply enc_unit_letters in Henc; [|apply strip_letters].
  exists o. split; [done|]. split; [done|].
  apply group5_upper_facts. clear -Henc.
  induction Henc as [|u v s o [Hv _] _ IH]; by constructor.
Qed.

Lemma run_stripped_output_witness :
  ∃ out o,
    Enigma.run (js "Hello, World!")
      (Enigma.mkArgs (catalog ROTORS "III") (js "A") (js "A")
                     (catalog ROTORS "II") (js "A") (js "A")
                     (catalog ROTORS "I") (js "A") (js "A")
                     (js "") (js "A") (catalog REFLECTORS "B") (js "") true)
    = Ok out ∧
    out = Enigma.group5 o ∧
    Forall2 (λ u v, 65 ≤ v ≤ 90 ∧ v ≠ upcase u)
      (Enigma.strip (js "Hello, World!")) o ∧
    Enigma.strip out = o.
Proof.
  eexists.
  destruct (run_stripped_output
    (Enigma.mkArgs (catalog ROTORS "III") (js "A") (js "A")
                   (catalog ROTORS "II") (js "A") (js "A")
                   (catalog ROTORS "I") (js "A") (js "A")
                   (js "") (js "A") (catalog REFLECTORS "B") (js "") true)
    (js "Hello, World!") (js "ILBDA AMTAZ")) as (o & H1 & H2 & H3);
    [reflexivity|vm_compute; reflexivity|].
  exists o. split; [vm_compute; reflexivity|]. done.
Defined.

(** X22. Decrypting with the operation: [run] with the same arguments over
    its own output gives the input back, with the ASCII letters in upper
    case; other characters are kept as they were, or, when they are
    dropped, the letters come back grouped in fives. *)
Theorem run_involution (a : Enigma.args) (input c : jsstring) :
  Enigma.run input a = Ok c →
  Enigma.run c a
  = Ok (if Enigma.removeOther a
        then Enigma.group5 (upcase <$> Enigma.strip input)
        else upcase <$> input).
Proof.
  intros H. destruct (Enigma.removeOther a) eqn:Hrm.
  - rewrite run_eq, Hrm in H. rewrite run_eq, Hrm.
    destruct (run_machine a) as [m|e] eqn:Hm; [|discriminate].
    apply run_machine_wf in Hm. cbn [mbind result_bind] in *.
    destruct (crypt_wf m (Enigma.strip input) Hm) as (m1 & o & Hc & _ & Henc & Hb).
    rewrite Hc in H. cbn [mbind result_bind snd] in H. injection H as <-.
    apply enc_unit_letters in Henc; [|apply strip_letters].
    assert (Enigma.strip (Enigma.group5 o) = o) as ->.
    { apply group5_upper_facts. clear -Henc.
      induction Henc as [|u v s o [Hv _] _ IH]; by constructor. }
    by rewrite Hb.
  - by apply run_round_trip.
Qed.

Lemma run_involution_witness :
  ∃ c, Enigma.run (js "Hello, World!") (args_AAA "III" "II" "I") = Ok c ∧
       Enigma.run c (args_AAA "III" "II" "I")
       = Ok (if Enigma.removeOther (args_AAA "III" "II" "I")
             then Enigma.group5 (upcase <$> Enigma.strip (js "Hello, World!"))
             else upcase <$> js "Hello, World!").
Proof.
  eexists. split; [vm_compute; reflexivity|].
  apply (run_involution (args_AAA "III" "II" "I") (js "Hello, World!")).
  vm_compute. reflexivity.
Defined.


